(** * logtor: the severity model and the log-creator registry

    A shallow embedding of [types/types.go], [logtor.go], [logcreator.go] and
    the control-surface handler [ChangeActiveLogCreator], followed by the
    properties of the dispatch-and-routing engine. *)

From Stdlib Require Import ZArith.
From stdpp Require Import gmap strings list fin_maps.

Local Open Scope string_scope.
Local Open Scope list_scope.

(** ** Package [types] *)

Module types.

(** [type LogLevel string] and [type LogCreatorName string]. *)
Abbreviation LogLevel := string.
Abbreviation LogCreatorName := string.

Definition NONE : LogLevel := "NONE".
Definition FATAL : LogLevel := "FATAL".
Definition ERROR : LogLevel := "ERROR".
Definition WARN : LogLevel := "WARN".
Definition DEBUG : LogLevel := "DEBUG".
Definition INFO : LogLevel := "INFO".
Definition TRACE : LogLevel := "TRACE".

Definition LogLevelList : list LogLevel :=
  [NONE; FATAL; ERROR; WARN; DEBUG; INFO; TRACE].

(** Go's [==] on strings. *)
Infix "==" := String.eqb (at level 70, no associativity).

(** [func IsLogLevelAcceptable(selected, using LogLevel) bool]: a [switch]
    on [selected], each case an [if] over a disjunction of comparisons. *)
Definition IsLogLevelAcceptable (selected using_ : LogLevel) : bool :=
  if selected == FATAL then
    if using_ == FATAL then true else false
  else if selected == ERROR then
    if (using_ == FATAL) || (using_ == ERROR) then true else false
  else if selected == WARN then
    if (using_ == FATAL) || (using_ == ERROR) || (using_ == WARN)
    then true else false
  else if selected == DEBUG then
    if (using_ == FATAL) || (using_ == ERROR) || (using_ == WARN)
       || (using_ == DEBUG)
    then true else false
  else if selected == INFO then
    if (using_ == FATAL) || (using_ == ERROR) || (using_ == WARN)
       || (using_ == DEBUG) || (using_ == INFO)
    then true else false
  else if selected == TRACE then
    if (using_ == FATAL) || (using_ == ERROR) || (using_ == WARN)
       || (using_ == DEBUG) || (using_ == INFO) || (using_ == TRACE)
    then true else false
  else false.

(** Modelled from the spec: the method [(LogLevel).IsLogLevelAcceptable],
    which [LogIt] calls on the stored threshold, is not in the sources (the
    package-level function above is).  Section 4.3, step 2: "Evaluate
    accepts(threshold, level)", so the receiver is the threshold. *)
Definition LogLevel_IsLogLevelAcceptable (l using_ : LogLevel) : bool :=
  IsLogLevelAcceptable l using_.

(** Modelled from the spec: the method [(LogLevel).IsValid] is not in the
    sources.  Section 4.1: "isValid(level) -> bool: true iff the level is
    one of the seven defined constants". *)
Definition IsValid (l : LogLevel) : bool :=
  existsb (String.eqb l) LogLevelList.

(** The rank of the specification: the six record levels mapped to
    [1..6]; [NONE] and every other string have no rank. *)
Definition rank (l : LogLevel) : option nat :=
  if l == FATAL then Some 1
  else if l == ERROR then Some 2
  else if l == WARN then Some 3
  else if l == DEBUG then Some 4
  else if l == INFO then Some 5
  else if l == TRACE then Some 6
  else None.

(** "rank(L) <= rank(T)": both levels are ranked and ordered. *)
Definition rank_le (L T : LogLevel) : Prop :=
  exists rl rt, rank L = Some rl /\ rank T = Some rt /\ rl <= rt.

End types.

Import types.

(** ** Package [logtor]: log creators *)

Module logtor.

(** [logMessage interface{}] is opaque to the dispatcher. *)
Abbreviation Message := string.

(** A log creator behind a non-nil pointer, as the dispatcher sees it through
    the [LogCreator] interface: [LogName()], [CallDepth()], [IsReady()] and
    the results of its two write methods.  [creatorAddr] is the pointer, so
    that two creators of the same name stay distinct objects. *)
Record Creator := {
  creatorAddr : nat;
  LogName : LogCreatorName;
  CallDepth : Z;
  IsReady : bool;
  creatorLogIt : LogLevel -> Message -> bool;
  creatorLogItWithCallDepth : LogLevel -> Z -> Message -> bool;
}.

(** A value of the interface type [LogCreator]: the nil interface, a non-nil
    interface that wraps a nil pointer (what [reflect.ValueOf(c).IsNil()]
    detects), or a pointer to a creator.  The creators are those of the
    package [creators]: pointers to structs whose [LogName], [LogIt] and
    [LogItWithCallDepth] read their receiver, and so panic on a nil
    pointer.  A creator held by value, on which [reflect.Value.IsNil]
    panics, and a nil pointer of a type whose [LogName] returns are no
    values of this type: the registry [AddLogCreators] leaves on them is
    [handlers.AddLogCreators_left], followed by [ChangeLogCreator] for the
    second, and the lock it leaves held is in
    [calls.AddLogCreators_args_ops]. *)
Inductive LogCreator :=
| nil_interface
| nil_pointer
| creator (c : Creator).

(** What a call ends in: a normal return or a run-time panic. *)
Inductive outcome (A : Type) :=
| Returns (a : A)
| Panics.
Arguments Returns {A} a.
Arguments Panics {A}.

(** The writes the creators have received, oldest first. *)
Inductive Delivery :=
| WroteLogIt (c : Creator) (level : LogLevel) (logMessage : Message)
| WroteLogItWithCallDepth (c : Creator) (level : LogLevel) (callDepth : Z)
    (logMessage : Message).

(** Code that may panic and may write to creators. *)
Definition Run (A : Type) : Type := list Delivery -> outcome (A * list Delivery).

Definition ret {A} (a : A) : Run A := fun w => Returns (a, w).

Definition bind {A B} (m : Run A) (k : A -> Run B) : Run B :=
  fun w => match m w with
           | Returns (a, w') => k a w'
           | Panics => Panics
           end.

Definition panic {A} : Run A := fun _ => Panics.

Notation "x <- m ;; k" := (bind m (fun x => k))
  (at level 100, m at next level, right associativity).

(** Go's short-circuit [a && b]: [b] runs only when [a] is true. *)
Definition and_then (a b : Run bool) : Run bool :=
  x <- a ;; if x then b else ret false.
Infix "&&&" := and_then (at level 40, left associativity).

(** Go's [!a]. *)
Definition not_ (a : Run bool) : Run bool := x <- a ;; ret (negb x).

(** Method calls through the interface.  A call on the nil interface is a
    nil dereference.  Through a nil pointer, [LogName], [LogIt] and
    [LogItWithCallDepth] of the creators in [creators/] read a field of the
    receiver ([fr.logName], [fr.log], [br.callDepth]) and panic as well.
    [IsReady] is only ever called on the current creator, which
    [ChangeLogCreator] takes from the map, where [AddLogCreators] stores no
    nil pointer; the model lets it panic there like the other methods. *)
Definition call_IsReady (lc : LogCreator) : Run bool :=
  match lc with
  | creator c => ret (IsReady c)
  | _ => panic
  end.

Definition call_LogName (lc : LogCreator) : outcome LogCreatorName :=
  match lc with
  | creator c => Returns (LogName c)
  | _ => Panics
  end.

Definition call_LogIt (lc : LogCreator) (level : LogLevel)
    (logMessage : Message) : Run bool :=
  match lc with
  | creator c =>
      fun w => Returns (creatorLogIt c level logMessage,
                        w ++ [WroteLogIt c level logMessage])
  | _ => panic
  end.

Definition call_LogItWithCallDepth (lc : LogCreator) (level : LogLevel)
    (callDepth : Z) (logMessage : Message) : Run bool :=
  match lc with
  | creator c =>
      fun w => Returns (creatorLogItWithCallDepth c level callDepth logMessage,
                        w ++ [WroteLogItWithCallDepth c level callDepth logMessage])
  | _ => panic
  end.

(** [x == nil] on an interface value. *)
Definition is_nil (lc : LogCreator) : bool :=
  match lc with nil_interface => true | _ => false end.

(** [reflect.ValueOf(x).IsNil()] on a non-nil interface value of one of the
    three shapes of [LogCreator], all pointers: it does not panic on them.
    On a creator held by value it panics; see [calls.Argument]. *)
Definition reflect_IsNil (lc : LogCreator) : bool :=
  match lc with nil_pointer => true | _ => false end.

(** ** The registry *)

(** [type Logtor struct]: the four data fields.  [changeMutex] is treated
    in [sync] and [calls] below: what a call does to the lock is in its
    list of operations, and what it leaves held when it ends is
    [calls.ends_holding] of that list.  The functions on [Logtor] give what
    a call does to the fields when the lock lets it run. *)
Record Logtor := {
  logCreatorList : gmap LogCreatorName LogCreator;
  logLevel : LogLevel;
  currentLogCreator : LogCreator;
  defaultCreator : LogCreator;
}.

Definition set_logLevel (l : Logtor) (v : LogLevel) : Logtor :=
  {| logCreatorList := logCreatorList l; logLevel := v;
     currentLogCreator := currentLogCreator l;
     defaultCreator := defaultCreator l |}.

Definition set_currentLogCreator (l : Logtor) (v : LogCreator) : Logtor :=
  {| logCreatorList := logCreatorList l; logLevel := logLevel l;
     currentLogCreator := v; defaultCreator := defaultCreator l |}.

Definition set_defaultCreator (l : Logtor) (v : LogCreator) : Logtor :=
  {| logCreatorList := logCreatorList l; logLevel := logLevel l;
     currentLogCreator := currentLogCreator l; defaultCreator := v |}.

Definition set_logCreatorList (l : Logtor)
    (v : gmap LogCreatorName LogCreator) : Logtor :=
  {| logCreatorList := v; logLevel := logLevel l;
     currentLogCreator := currentLogCreator l;
     defaultCreator := defaultCreator l |}.

(** [func New() *Logtor] *)
Definition New : Logtor :=
  {| logCreatorList := ∅; logLevel := NONE;
     currentLogCreator := nil_interface; defaultCreator := nil_interface |}.

(** [func (l *Logtor) WithDefaultCreator(creator LogCreator) *Logtor] *)
Definition WithDefaultCreator (l : Logtor) (c : LogCreator) : Logtor :=
  set_defaultCreator l c.

(** [func (l *Logtor) SetLogLevel(logLevel types.LogLevel) bool]: the result
    and the registry after the call. *)
Definition SetLogLevel (l : Logtor) (level : LogLevel) : bool * Logtor :=
  if IsValid level then (true, set_logLevel l level) else (false, l).

(** [func (l *Logtor) LogLevel() types.LogLevel] *)
Definition get_LogLevel (l : Logtor) : LogLevel := logLevel l.

(** [func (l *Logtor) ChangeLogCreator(name) bool] *)
Definition ChangeLogCreator (l : Logtor) (logCreatorName : LogCreatorName)
    : bool * Logtor :=
  match logCreatorList l !! logCreatorName with
  | None => (false, l)
  | Some lc => (true, set_currentLogCreator l lc)
  end.

(** [func (l *Logtor) LogCreator() LogCreator] *)
Definition get_LogCreator (l : Logtor) : LogCreator := currentLogCreator l.

(** [func (l *Logtor) LogIt(level, logMessage) bool] *)
Definition LogIt (l : Logtor) (level : LogLevel) (logMessage : Message)
    : Run bool :=
  c1 <- ret (LogLevel_IsLogLevelAcceptable (logLevel l) level)
        &&& call_IsReady (currentLogCreator l) ;;
  if c1 then call_LogIt (currentLogCreator l) level logMessage
  else
    c2 <- ret (LogLevel_IsLogLevelAcceptable (logLevel l) level)
          &&& not_ (call_IsReady (currentLogCreator l))
          &&& ret (negb (is_nil (defaultCreator l))) ;;
    if c2 then call_LogIt (defaultCreator l) level logMessage
    else ret false.

(** [func (l *Logtor) LogItWithCallDepth(level, callDepth, logMessage) bool] *)
Definition LogItWithCallDepth (l : Logtor) (level : LogLevel) (callDepth : Z)
    (logMessage : Message) : Run bool :=
  c1 <- ret (IsLogLevelAcceptable (get_LogLevel l) level)
        &&& call_IsReady (currentLogCreator l) ;;
  if c1 then
    call_LogItWithCallDepth (currentLogCreator l) level callDepth logMessage
  else
    c2 <- ret (LogLevel_IsLogLevelAcceptable (logLevel l) level)
          &&& not_ (call_IsReady (currentLogCreator l))
          &&& ret (negb (is_nil (defaultCreator l))) ;;
    if c2 then
      call_LogItWithCallDepth (defaultCreator l) level callDepth logMessage
    else ret false.

(** The body of the [for ... range logCreators] loop of [AddLogCreators]:
    [if logCreator != nil && !reflect.ValueOf(logCreator).IsNil()] the
    creator is stored under its name. *)
Definition add_one (m : gmap LogCreatorName LogCreator) (lc : LogCreator)
    : gmap LogCreatorName LogCreator :=
  if negb (is_nil lc) && negb (reflect_IsNil lc) then
    match lc with
    | creator c => <[LogName c := lc]> m
    | _ => m
    end
  else m.

(** [func (l *Logtor) AddLogCreators(logCreators ...LogCreator)]: the
    registry after the call, on arguments of the three shapes of
    [LogCreator] and with [changeMutex] free.  [logCreators[0]] panics on an
    empty slice.  The call on other arguments is in
    [handlers.AddLogCreators_left] and [calls.AddLogCreators_args_ops]; on
    a lock left held the call waits at [Lock()], which [sync.step] shows. *)
Definition AddLogCreators (l : Logtor) (logCreators : list LogCreator)
    : outcome Logtor :=
  let l1 := set_logCreatorList l (foldl add_one (logCreatorList l) logCreators) in
  if is_nil (currentLogCreator l1) then
    match logCreators with
    | [] => Panics
    | first :: _ =>
        match call_LogName first with
        | Returns name => Returns (snd (ChangeLogCreator l1 name))
        | Panics => Panics
        end
    end
  else Returns l1.

(** The creator a batch leaves registered under [name]: the last non-nil
    creator of the batch that carries the name, if there is one. *)
Fixpoint last_named (name : LogCreatorName) (logCreators : list LogCreator)
    : option Creator :=
  match logCreators with
  | [] => None
  | lc :: rest =>
      match last_named name rest with
      | Some c => Some c
      | None =>
          match lc with
          | creator c => if LogName c == name then Some c else None
          | _ => None
          end
      end
  end.

(** A nil element of a batch: the nil interface or a nil pointer. *)
Definition is_null (lc : LogCreator) : bool :=
  is_nil lc || reflect_IsNil lc.

(** ** The control surface: [ChangeActiveLogCreator] *)

(** The request as the handler reads it: the method, and what
    [json.NewDecoder(r.Body).Decode(&payload)] leaves in
    [payload map[string]string] ([None] when it returns an error). *)
Record Request := {
  Method : string;
  Body : option (gmap string string);
}.

(** The JSON object of the answer. *)
Record ChangeResult := {
  OldLogCreator : string;
  CurrentLogCreator : string;
}.

(** What the handler leaves in the [http.ResponseWriter]. *)
Record Response := {
  StatusCode : Z;
  Written : option ChangeResult;
}.

Definition StatusOK : Z := 200.
Definition StatusBadRequest : Z := 400.
Definition StatusNotFound : Z := 404.
Definition MethodPost : string := "POST".

Definition status_only (code : Z) : Response :=
  {| StatusCode := code; Written := None |}.

(** [func (l *Logtor) ChangeActiveLogCreator(w, r)]: the registry after the
    call and the response.  The field the handler calls [activeLogCreator] is
    [currentLogCreator] of [logtor.go].  [json.Marshal] of a struct of two
    strings does not fail. *)
Definition ChangeActiveLogCreator (l : Logtor) (r : Request)
    : outcome (Logtor * Response) :=
  if (size (logCreatorList l) =? 0)%nat then
    Returns (l, status_only StatusNotFound)
  else if negb (Method r == MethodPost) then
    Returns (l, status_only StatusBadRequest)
  else
    match Body r with
    | None => Returns (l, status_only StatusBadRequest)
    | Some payload =>
        if (size payload =? 0)%nat then
          Returns (l, status_only StatusBadRequest)
        else
          match call_LogName (currentLogCreator l) with
          | Panics => Panics
          | Returns oldLogCreator =>
              let '(l', currentLogCreator) :=
                match payload !! "log_creator" with
                | Some v =>
                    let '(ok, l') := ChangeLogCreator l v in
                    if ok then (l', v) else (l', oldLogCreator)
                | None => (l, "")
                end in
              Returns (l', {| StatusCode := StatusOK;
                              Written := Some {| OldLogCreator := oldLogCreator;
                                                 CurrentLogCreator := currentLogCreator |} |})
          end
    end.

End logtor.

Import logtor.

(** ** [changeMutex]: locking and shared accesses

    What each method does to [changeMutex sync.RWMutex] and to the fields of
    [Logtor], in program order, and the interleavings of goroutines that
    run such methods. *)

Module sync.

Inductive Field :=
| F_logCreatorList
| F_logLevel
| F_currentLogCreator
| F_defaultCreator.

#[global] Instance Field_eq_dec : EqDecision Field.
Proof. solve_decision. Defined.

Inductive Op :=
| RLock
| RUnlock
| Lock
| Unlock
| Load (f : Field)
| Store (f : Field).

#[global] Instance Op_eq_dec : EqDecision Op.
Proof. solve_decision. Defined.

(** [ChangeLogCreator]: [RLock], [defer RUnlock], the lookup, and on success
    the second lookup and the assignment to [currentLogCreator]. *)
Definition ChangeLogCreator_ops (l : Logtor) (logCreatorName : LogCreatorName)
    : list Op :=
  [RLock; Load F_logCreatorList]
  ++ match logCreatorList l !! logCreatorName with
     | Some _ => [Load F_logCreatorList; Store F_currentLogCreator]
     | None => []
     end
  ++ [RUnlock].

(** [LogIt] and [LogItWithCallDepth]: the two conditions, evaluated left to
    right with short-circuit, and the receiver of the write; nothing follows
    a call of [IsReady] that panics. *)
Definition LogIt_ops (l : Logtor) (level : LogLevel) : list Op :=
  [Load F_logLevel]
  ++ if LogLevel_IsLogLevelAcceptable (logLevel l) level then
       [Load F_currentLogCreator]
       ++ match currentLogCreator l with
          | creator c =>
              if IsReady c then [Load F_currentLogCreator]
              else
                [Load F_logLevel; Load F_currentLogCreator;
                 Load F_defaultCreator]
                ++ (if negb (is_nil (defaultCreator l))
                    then [Load F_defaultCreator] else [])
          | _ => []
          end
     else [Load F_logLevel].

(** [AddLogCreators]: the loop under [Lock], then the unlocked test of
    [currentLogCreator] and the call of [ChangeLogCreator]. *)
Definition AddLogCreators_ops (l : Logtor) (logCreators : list LogCreator)
    : list Op :=
  let l1 := set_logCreatorList l (foldl add_one (logCreatorList l) logCreators) in
  [Lock]
  ++ flat_map (fun lc =>
       if negb (is_nil lc) && negb (reflect_IsNil lc)
       then [Store F_logCreatorList] else []) logCreators
  ++ [Unlock; Load F_currentLogCreator]
  ++ (if is_nil (currentLogCreator l) then
        match logCreators with
        | first :: _ =>
            match call_LogName first with
            | Returns name => ChangeLogCreator_ops l1 name
            | Panics => []
            end
        | [] => []
        end
      else []).

(** [sync.RWMutex]: the number of readers inside and whether a writer is. *)
Record RWMutex := {
  readers : nat;
  writer : bool;
}.

(** One operation of a goroutine on the mutex; [None] when it has to wait
    (or, for an unlock of a mutex not held, is a run-time error).  A reader
    is let in whenever no writer is inside: Go also holds new readers back
    while a writer waits, which only removes interleavings. *)
Definition mutex_step (o : Op) (m : RWMutex) : option RWMutex :=
  match o with
  | RLock =>
      if writer m then None
      else Some {| readers := S (readers m); writer := false |}
  | RUnlock =>
      match readers m with
      | O => None
      | S n => Some {| readers := n; writer := writer m |}
      end
  | Lock =>
      if writer m then None
      else match readers m with
           | O => Some {| readers := 0; writer := true |}
           | S _ => None
           end
  | Unlock =>
      if writer m then Some {| readers := readers m; writer := false |}
      else None
  | Load _ | Store _ => Some m
  end.

(** Goroutines, each with the operations it still has to run. *)
Record Config := {
  mutex : RWMutex;
  goroutines : list (list Op);
}.

Definition start (gs : list (list Op)) : Config :=
  {| mutex := {| readers := 0; writer := false |}; goroutines := gs |}.

(** Goroutine [i] runs its next operation. *)
Definition step (i : nat) (c : Config) : option Config :=
  match goroutines c !! i with
  | Some (o :: rest) =>
      match mutex_step o (mutex c) with
      | Some m' => Some {| mutex := m'; goroutines := <[i := rest]> (goroutines c) |}
      | None => None
      end
  | _ => None
  end.

(** A schedule: which goroutine runs at each step. *)
Fixpoint exec (schedule : list nat) (c : Config) : option Config :=
  match schedule with
  | [] => Some c
  | i :: schedule' =>
      match step i c with
      | Some c' => exec schedule' c'
      | None => None
      end
  end.

(** Two accesses conflict: the same field, and one of them is a store. *)
Definition conflict (a b : Op) : bool :=
  match a, b with
  | Store f, Store g | Store f, Load g | Load f, Store g =>
      bool_decide (f = g)
  | _, _ => false
  end.

Definition next_op (c : Config) (i : nat) : option Op :=
  match goroutines c !! i with
  | Some (o :: _) => Some o
  | _ => None
  end.

(** A data race between goroutines [i] and [j]: both are about to access
    the same field, one of them to store, and nothing orders them. *)
Definition races (c : Config) (i j : nat) : bool :=
  bool_decide (i <> j)
  && match next_op c i, next_op c j with
     | Some a, Some b => conflict a b
     | _, _ => false
     end.

(** Whether a method performs a given operation at all. *)
Definition takes (o : Op) (ops : list Op) : bool :=
  existsb (fun x => bool_decide (x = o)) ops.

(** Whether an operation touches the mutex. *)
Definition is_mutex_op (o : Op) : bool :=
  match o with
  | RLock | RUnlock | Lock | Unlock => true
  | Load _ | Store _ => false
  end.

(** *** The discipline of the specification

    "[log] ... take the read (shared) lock; [register] and [activate] take
    the write (exclusive) lock". *)

(** What a goroutine holds of the mutex. *)
Inductive Held :=
| Free
| Shared
| Excl.

#[global] Instance Held_eq_dec : EqDecision Held.
Proof. solve_decision. Defined.

(** The operations a goroutine still has to run follow the discipline,
    given what it holds: it stores only under the exclusive lock, loads only
    under a lock, and locks and unlocks in turn. *)
Fixpoint guarded (h : Held) (ops : list Op) : bool :=
  match ops with
  | [] => true
  | RLock :: rest => bool_decide (h = Free) && guarded Shared rest
  | RUnlock :: rest => bool_decide (h = Shared) && guarded Free rest
  | Lock :: rest => bool_decide (h = Free) && guarded Excl rest
  | Unlock :: rest => bool_decide (h = Excl) && guarded Free rest
  | Load _ :: rest => negb (bool_decide (h = Free)) && guarded h rest
  | Store _ :: rest => bool_decide (h = Excl) && guarded h rest
  end.

(** What a goroutine holds after one operation. *)
Definition held_after (o : Op) (h : Held) : Held :=
  match o with
  | RLock => Shared
  | Lock => Excl
  | RUnlock | Unlock => Free
  | Load _ | Store _ => h
  end.

(** How many goroutines hold the mutex in a given way. *)
Fixpoint holders (x : Held) (hs : list Held) : nat :=
  match hs with
  | [] => 0
  | h :: rest => (if bool_decide (h = x) then 1 else 0) + holders x rest
  end.

(** The mutex agrees with what the goroutines hold, and each goroutine's
    remaining operations follow the discipline. *)
Definition consistent (hs : list Held) (c : Config) : Prop :=
  Forall2 (fun h ops => guarded h ops = true) hs (goroutines c)
  /\ readers (mutex c) = holders Shared hs
  /\ writer (mutex c) = bool_decide (holders Excl hs <> 0)
  /\ holders Excl hs <= 1
  /\ (holders Excl hs = 1 -> holders Shared hs = 0).

(** A method rewritten to take the exclusive lock where it takes the
    shared one. *)
Definition exclusively (ops : list Op) : list Op :=
  map (fun o => match o with
                | RLock => Lock
                | RUnlock => Unlock
                | _ => o
                end) ops.

(** A method that takes no lock, run under the shared lock. *)
Definition under_RLock (ops : list Op) : list Op :=
  [RLock] ++ ops ++ [RUnlock].

End sync.

Import sync.

(** ** Creators and registries used in the examples *)

Module examples.

(** A creator whose writes always report success, like [FileCreator]. *)
Definition make (addr : nat) (name : LogCreatorName) (ready : bool) : Creator :=
  {| creatorAddr := addr; LogName := name; CallDepth := 3; IsReady := ready;
     creatorLogIt := fun _ _ => true;
     creatorLogItWithCallDepth := fun _ _ _ => true |}.

Definition Console : Creator := make 1 "Console" true.
Definition File : Creator := make 2 "File" true.
(** A broker creator whose transport is down. *)
Definition Broker : Creator := make 3 "Broker" false.
(** A second creator that also calls itself "Console". *)
Definition Console2 : Creator := make 4 "Console" true.

(** [New()], [AddLogCreators(Console, File, Broker)] and
    [SetLogLevel(threshold)], with [active] made current. *)
Definition registry (threshold : LogLevel) (active : Creator) : Logtor :=
  {| logCreatorList :=
       <["Broker" := creator Broker]>
         (<["File" := creator File]> (<["Console" := creator Console]> ∅));
     logLevel := threshold;
     currentLogCreator := creator active;
     defaultCreator := nil_interface |}.

End examples.

Import examples.

(** ** Package [types]: colours *)

Module colours.

(** The escape character, [\033]. *)
Definition ESC : string := String (Ascii.ascii_of_nat 27) EmptyString.

(** The package variables, with the values they are initialised to. *)
Definition ResetColor : string := String.append ESC "[0m".
Definition NoneColor : string := String.append ESC "[97m".
Definition FatalColor : string := String.append ESC "[31m".
Definition ErrorColor : string := String.append ESC "[31m".
Definition WarnColor : string := String.append ESC "[33m".
Definition DebugColor : string := String.append ESC "[32m".
Definition InfoColor : string := String.append ESC "[34m".
Definition TraceColor : string := String.append ESC "[35m".

(** [func GetColorForLogLevel(level LogLevel) string] *)
Definition GetColorForLogLevel (level : LogLevel) : string :=
  if level == FATAL then FatalColor
  else if level == ERROR then ErrorColor
  else if level == WARN then WarnColor
  else if level == DEBUG then DebugColor
  else if level == INFO then InfoColor
  else if level == TRACE then TraceColor
  else ResetColor.

(** The six levels a record can carry. *)
Definition record_levels : list LogLevel :=
  [FATAL; ERROR; WARN; DEBUG; INFO; TRACE].

End colours.

Import colours.

(** ** Package [creators]: the file creator *)

Module creators.

(** [const File types.LogCreatorName = "File"] *)
Definition File : LogCreatorName := "File".

(** [type FileCreator struct], without its [*log.Logger]. *)
Record FileCreator := {
  fileName : string;
  logName : LogCreatorName;
  callDepth : Z;
  logPrefix : Z;
}.

(** [func NewFileCreator(filename, logName, callDepth, logPrefix)]:
    [openFile] tells whether [os.OpenFile] succeeds on a file name; when it
    does not, the constructor returns the error and no creator. *)
Definition NewFileCreator (openFile : string -> bool) (filename : string)
    (name : LogCreatorName) (depth prefix : Z) : option FileCreator :=
  if openFile filename then
    Some {| fileName := filename;
            logName := if name == "" then File else name;
            callDepth := depth;
            logPrefix := prefix |}
  else None.

(** A [*FileCreator] at address [addr] behind the [LogCreator] interface:
    [LogName()] and [CallDepth()] return the fields, [IsReady()] returns
    true, and [LogItWithCallDepth], and [LogIt] through it, return true. *)
Definition as_LogCreator (addr : nat) (fr : FileCreator) : Creator :=
  {| creatorAddr := addr;
     LogName := logName fr;
     CallDepth := callDepth fr;
     IsReady := true;
     creatorLogIt := fun _ _ => true;
     creatorLogItWithCallDepth := fun _ _ _ => true |}.

End creators.

(** ** Package [logtor]: shutdown and the other handlers *)

Module handlers.

(** [Shutdown()] of one creator of the map; the call through a nil value
    panics, as the other calls do. *)
Definition shutdown_one (acc : outcome (list Creator)) (lc : LogCreator)
    : outcome (list Creator) :=
  match acc, lc with
  | Returns done, creator c => Returns (done ++ [c])
  | _, _ => Panics
  end.

(** [func (l *Logtor) Shutdown()]: the creators whose [Shutdown] is called,
    in the order of the loop.  Go ranges over a map in no specified order;
    the list follows the order of [map_to_list]. *)
Definition Shutdown (l : Logtor) : outcome (list Creator) :=
  foldl shutdown_one (Returns []) (map_to_list (logCreatorList l)).*2.

(** What a handler leaves in the [http.ResponseWriter]: the status and the
    value whose JSON it writes, if it writes one. *)
Record Reply (A : Type) := {
  ReplyStatus : Z;
  ReplyBody : option A;
}.
Arguments ReplyStatus {A} _.
Arguments ReplyBody {A} _.


(** [func (l *Logtor) GetCurrentLogCreator(w, r)] *)
Definition GetCurrentLogCreator (l : Logtor) : outcome (Reply string) :=
  if (size (logCreatorList l) =? 0)%nat then
    Returns {| ReplyStatus := StatusNotFound; ReplyBody := None |}
  else
    match call_LogName (currentLogCreator l) with
    | Panics => Panics
    | Returns name =>
        Returns {| ReplyStatus := StatusOK; ReplyBody := Some name |}
    end.

(** [func (l *Logtor) GetLogLevelList(w, r)] *)
Definition GetLogLevelList : Reply (list string) :=
  {| ReplyStatus := StatusOK; ReplyBody := Some LogLevelList |}.

(** [func (l *Logtor) GetActiveLogLevel(w, r)] *)
Definition GetActiveLogLevel (l : Logtor) : Reply string :=
  if (size (logCreatorList l) =? 0)%nat then
    {| ReplyStatus := StatusNotFound; ReplyBody := None |}
  else {| ReplyStatus := StatusOK; ReplyBody := Some (get_LogLevel l) |}.

(** The request as [SetLogLevelHandlerFunc] reads it: the method and what
    [io.ReadAll(r.Body)] returns ([None] for an error). *)
Record TextRequest := {
  TextMethod : string;
  TextBody : option string;
}.

(** The JSON object of its answer. *)
Record LevelResult := {
  OldLogLevel : string;
  CurrentLogLevel : string;
}.

(** [func (l *Logtor) SetLogLevelHandlerFunc(w, r)]: the four fields after
    the call and the response.  On the 404 path the code returns with the
    read lock of [changeMutex] held; that is in
    [calls.SetLogLevelHandlerFunc_ops]. *)
Definition SetLogLevelHandlerFunc (l : Logtor) (r : TextRequest)
    : Logtor * Reply LevelResult :=
  if (size (logCreatorList l) =? 0)%nat then
    (l, {| ReplyStatus := StatusNotFound; ReplyBody := None |})
  else
    let oldLogLevel := get_LogLevel l in
    if negb (TextMethod r == MethodPost) then
      (l, {| ReplyStatus := StatusBadRequest; ReplyBody := None |})
    else
      match TextBody r with
      | None => (l, {| ReplyStatus := StatusBadRequest; ReplyBody := None |})
      | Some payload =>
          let '(ok, l') := SetLogLevel l payload in
          let currentLogLevel := if ok then payload else oldLogLevel in
          (l', {| ReplyStatus := StatusOK;
                  ReplyBody := Some {| OldLogLevel := oldLogLevel;
                                       CurrentLogLevel := currentLogLevel |} |})
      end.

(** The registry a call of [AddLogCreators] leaves behind when it ends in
    its loop or right after it, with the creators the loop got through
    stored and nothing else changed. *)
Definition AddLogCreators_left (l : Logtor) (logCreators : list LogCreator)
    : Logtor :=
  set_logCreatorList l (foldl add_one (logCreatorList l) logCreators).

(** The four fields of the registries a program can hold: those of [New()],
    changed by calls that return, and by calls of [AddLogCreators] that do
    not get past [logCreators[0].LogName()]: the panic on an empty batch or
    on a nil first element, when the caller recovers from it, and a panic
    inside the loop, leave the map of the loop and the current creator as
    it was; a nil pointer whose [LogName] returns leaves what the call of
    [ChangeLogCreator] on that registry leaves. *)
Inductive reachable : Logtor -> Prop :=
| reach_New : reachable New
| reach_AddLogCreators_left (l : Logtor) (logCreators : list LogCreator) :
    reachable l -> reachable (AddLogCreators_left l logCreators)
| reach_WithDefaultCreator (l : Logtor) (lc : LogCreator) :
    reachable l -> reachable (WithDefaultCreator l lc)
| reach_SetLogLevel (l : Logtor) (level : LogLevel) :
    reachable l -> reachable (SetLogLevel l level).2
| reach_ChangeLogCreator (l : Logtor) (name : LogCreatorName) :
    reachable l -> reachable (ChangeLogCreator l name).2
| reach_AddLogCreators (l l' : Logtor) (logCreators : list LogCreator) :
    reachable l -> AddLogCreators l logCreators = Returns l' -> reachable l'
| reach_ChangeActiveLogCreator (l l' : Logtor) (r : Request) (a : Response) :
    reachable l -> ChangeActiveLogCreator l r = Returns (l', a) ->
    reachable l'
| reach_SetLogLevelHandlerFunc (l : Logtor) (r : TextRequest) :
    reachable l -> reachable (SetLogLevelHandlerFunc l r).1.

(** Every entry of the map is a creator stored under its own name. *)
Definition keyed (l : Logtor) : Prop :=
  forall (name : LogCreatorName) (lc : LogCreator),
    logCreatorList l !! name = Some lc ->
    exists c, lc = creator c /\ LogName c = name.

(** The current creator is unset or a creator whose name is registered. *)
Definition current_registered (l : Logtor) : Prop :=
  match currentLogCreator l with
  | nil_interface => True
  | nil_pointer => False
  | creator c => is_Some (logCreatorList l !! LogName c)
  end.

End handlers.

Import handlers.

(** ** Dispatch when readiness changes between the two conditions *)

Module readiness.

(** [LogIt] with a creator current, where its [IsReady()] answers [first]
    to the first condition and [second] to the second: the code asks once
    per condition (lines 138 and 140), and what a creator answers can
    change in between.  With both answers the creator's [IsReady] field
    this is [LogIt]. *)
Definition LogIt_asked (l : Logtor) (first second : bool) (level : LogLevel)
    (logMessage : Message) : Run bool :=
  c1 <- ret (LogLevel_IsLogLevelAcceptable (logLevel l) level)
        &&& ret first ;;
  if c1 then call_LogIt (currentLogCreator l) level logMessage
  else
    c2 <- ret (LogLevel_IsLogLevelAcceptable (logLevel l) level)
          &&& not_ (ret second)
          &&& ret (negb (is_nil (defaultCreator l))) ;;
    if c2 then call_LogIt (defaultCreator l) level logMessage
    else ret false.

(** [LogItWithCallDepth], likewise (lines 160 and 162). *)
Definition LogItWithCallDepth_asked (l : Logtor) (first second : bool)
    (level : LogLevel) (callDepth : Z) (logMessage : Message) : Run bool :=
  c1 <- ret (IsLogLevelAcceptable (get_LogLevel l) level)
        &&& ret first ;;
  if c1 then
    call_LogItWithCallDepth (currentLogCreator l) level callDepth logMessage
  else
    c2 <- ret (LogLevel_IsLogLevelAcceptable (logLevel l) level)
          &&& not_ (ret second)
          &&& ret (negb (is_nil (defaultCreator l))) ;;
    if c2 then
      call_LogItWithCallDepth (defaultCreator l) level callDepth logMessage
    else ret false.

End readiness.

Import readiness.

(** ** [changeMutex] in the other methods *)

Module calls.

(** An argument of [AddLogCreators]: a value of one of the three shapes of
    [LogCreator], or a creator on which the loop panics, between [Lock()]
    and [Unlock()] and before anything is stored for it: a creator held by
    value, on which [reflect.ValueOf(logCreator).IsNil()] panics, or one
    whose [LogName()] panics. *)
Inductive Argument :=
| sound (lc : LogCreator)
| faulty.

Definition has_fault (args : list Argument) : bool :=
  existsb (fun a => match a with faulty => true | sound _ => false end) args.

(** The arguments the loop gets through. *)
Fixpoint sound_prefix (args : list Argument) : list LogCreator :=
  match args with
  | sound lc :: rest => lc :: sound_prefix rest
  | _ => []
  end.

(** A call of a method of [Logtor]. *)
Inductive Call :=
| Call_SetLogLevel (level : LogLevel)
| Call_ChangeLogCreator (name : LogCreatorName)
| Call_LogIt (level : LogLevel)
| Call_AddLogCreators (logCreators : list LogCreator)
| Call_AddLogCreators_args (args : list Argument)
| Call_Shutdown
| Call_GetLogCreatorList
| Call_GetCurrentLogCreator
| Call_ChangeActiveLogCreator (r : Request)
| Call_GetLogLevelList
| Call_GetActiveLogLevel
| Call_SetLogLevelHandlerFunc (r : TextRequest).

(** [SetLogLevel] assigns [logLevel] with no lock. *)
Definition SetLogLevel_ops (level : LogLevel) : list Op :=
  if IsValid level then [Store F_logLevel] else [].

(** [Shutdown] ranges over the map with no lock. *)
Definition Shutdown_ops : list Op := [Load F_logCreatorList].

(** [GetLogCreatorList]: [RLock], [defer RUnlock], the loop over the map. *)
Definition GetLogCreatorList_ops : list Op :=
  [RLock; Load F_logCreatorList; RUnlock].

(** [GetCurrentLogCreator]: [RLock], [defer RUnlock], [len] of the map and,
    unless it is empty, the call of [LogName] on the current creator. *)
Definition GetCurrentLogCreator_ops (l : Logtor) : list Op :=
  [RLock; Load F_logCreatorList]
  ++ (if (size (logCreatorList l) =? 0)%nat then []
      else [Load F_currentLogCreator])
  ++ [RUnlock].

(** [ChangeActiveLogCreator]: [RLock], [defer RUnlock]; around the call of
    [ChangeLogCreator] the handler gives the lock up and takes it again. *)
Definition ChangeActiveLogCreator_ops (l : Logtor) (r : Request) : list Op :=
  [RLock; Load F_logCreatorList]
  ++ (if (size (logCreatorList l) =? 0)%nat then []
      else if negb (Method r == MethodPost) then []
      else
        match Body r with
        | None => []
        | Some payload =>
            if (size payload =? 0)%nat then []
            else
              [Load F_currentLogCreator]
              ++ match call_LogName (currentLogCreator l) with
                 | Panics => []
                 | Returns _ =>
                     match payload !! "log_creator" with
                     | Some v => [RUnlock] ++ ChangeLogCreator_ops l v ++ [RLock]
                     | None => []
                     end
                 end
        end)
  ++ [RUnlock].

(** [GetActiveLogLevel]: [RLock], [defer RUnlock], [len] of the map and,
    unless it is empty, the threshold. *)
Definition GetActiveLogLevel_ops (l : Logtor) : list Op :=
  [RLock; Load F_logCreatorList]
  ++ (if (size (logCreatorList l) =? 0)%nat then [] else [Load F_logLevel])
  ++ [RUnlock].

(** [SetLogLevelHandlerFunc]: [RLock] with no [defer]; the return on an
    empty map comes before the [RUnlock]. *)
Definition SetLogLevelHandlerFunc_ops (l : Logtor) (r : TextRequest)
    : list Op :=
  [RLock; Load F_logCreatorList]
  ++ (if (size (logCreatorList l) =? 0)%nat then []
      else
        [Load F_logLevel; RUnlock]
        ++ (if negb (TextMethod r == MethodPost) then []
            else
              match TextBody r with
              | None => []
              | Some payload => SetLogLevel_ops payload
              end)).

(** [AddLogCreators] on arguments of which one may be faulty: the panic in
    the loop ends the call after the stores before it, with no [Unlock]
    (the code has no [defer]); without a fault the call runs as above. *)
Definition AddLogCreators_args_ops (l : Logtor) (args : list Argument)
    : list Op :=
  if has_fault args then
    [Lock]
    ++ flat_map (fun lc =>
         if negb (is_nil lc) && negb (reflect_IsNil lc)
         then [Store F_logCreatorList] else []) (sound_prefix args)
  else AddLogCreators_ops l (sound_prefix args).

(** The operations of a call on a registry. *)
Definition ops_of (l : Logtor) (c : Call) : list Op :=
  match c with
  | Call_SetLogLevel level => SetLogLevel_ops level
  | Call_ChangeLogCreator name => ChangeLogCreator_ops l name
  | Call_LogIt level => LogIt_ops l level
  | Call_AddLogCreators logCreators => AddLogCreators_ops l logCreators
  | Call_AddLogCreators_args args => AddLogCreators_args_ops l args
  | Call_Shutdown => Shutdown_ops
  | Call_GetLogCreatorList => GetLogCreatorList_ops
  | Call_GetCurrentLogCreator => GetCurrentLogCreator_ops l
  | Call_ChangeActiveLogCreator r => ChangeActiveLogCreator_ops l r
  | Call_GetLogLevelList => []
  | Call_GetActiveLogLevel => GetActiveLogLevel_ops l
  | Call_SetLogLevelHandlerFunc r => SetLogLevelHandlerFunc_ops l r
  end.

Definition is_Shutdown (c : Call) : bool :=
  match c with Call_Shutdown => true | _ => false end.

(** What a goroutine holds when its operations are done; [None] when they
    take or give up the lock out of turn. *)
Fixpoint ends_holding (h : Held) (ops : list Op) : option Held :=
  match ops with
  | [] => Some h
  | RLock :: rest =>
      if bool_decide (h = Free) then ends_holding Shared rest else None
  | RUnlock :: rest =>
      if bool_decide (h = Shared) then ends_holding Free rest else None
  | Lock :: rest =>
      if bool_decide (h = Free) then ends_holding Excl rest else None
  | Unlock :: rest =>
      if bool_decide (h = Excl) then ends_holding Free rest else None
  | Load _ :: rest | Store _ :: rest => ends_holding h rest
  end.

(** The operations follow the lock discipline on the fields [P] selects:
    such a field is stored only under the exclusive lock and loaded only
    under a lock; the other fields are left alone. *)
Fixpoint protects (P : Field -> bool) (h : Held) (ops : list Op) : bool :=
  match ops with
  | [] => true
  | RLock :: rest => bool_decide (h = Free) && protects P Shared rest
  | RUnlock :: rest => bool_decide (h = Shared) && protects P Free rest
  | Lock :: rest => bool_decide (h = Free) && protects P Excl rest
  | Unlock :: rest => bool_decide (h = Excl) && protects P Free rest
  | Load f :: rest =>
      (negb (P f) || negb (bool_decide (h = Free))) && protects P h rest
  | Store f :: rest =>
      (negb (P f) || bool_decide (h = Excl)) && protects P h rest
  end.

(** The mutex agrees with what the goroutines hold, and each goroutine's
    remaining operations protect the fields of [P]. *)
Definition consistent_on (P : Field -> bool) (hs : list Held) (c : Config)
    : Prop :=
  Forall2 (fun h ops => protects P h ops = true) hs (goroutines c)
  /\ readers (mutex c) = holders Shared hs
  /\ writer (mutex c) = bool_decide (holders Excl hs <> 0)
  /\ holders Excl hs <= 1
  /\ (holders Excl hs = 1 -> holders Shared hs = 0).

(** Whether an operation accesses a field. *)
Definition accesses (f : Field) (o : Op) : bool :=
  match o with
  | Load g | Store g => bool_decide (f = g)
  | _ => false
  end.

(** A data race between goroutines [i] and [j] on the field [f]. *)
Definition races_on (f : Field) (c : Config) (i j : nat) : bool :=
  races c i j
  && match next_op c i with
     | Some o => accesses f o
     | None => false
     end.

Definition is_logCreatorList (f : Field) : bool :=
  bool_decide (f = F_logCreatorList).

End calls.

Import calls.

(** ** Proof steps *)

(** Case analysis on every string comparison of the goal. *)
Ltac case_levels :=
  repeat match goal with
    | |- context [String.eqb ?a ?b] =>
        destruct (String.eqb_spec a b); subst; cbn
    end.

(** Unfolding of the two dispatch methods down to the creators' calls. *)
Ltac run_dispatch :=
  unfold LogIt, LogItWithCallDepth, and_then, not_, bind, ret, panic,
    call_IsReady, call_LogIt, call_LogItWithCallDepth, get_LogLevel,
    LogLevel_IsLogLevelAcceptable.

(** Case analysis on every decision of the goal. *)
Ltac case_holders :=
  repeat match goal with
    | |- context [bool_decide ?P] => destruct (bool_decide P)
    end.

(** Evaluation of the decisions between two given ways of holding. *)
Ltac decide_held :=
  repeat match goal with
    | H : context [bool_decide (?a = ?b)] |- _ =>
        first [ rewrite (bool_decide_eq_true_2 (a = b)) in H by done
              | rewrite (bool_decide_eq_false_2 (a = b)) in H by done ]
    end.

(** A string outside a list of levels differs from each level of the list. *)
Ltac other_level H :=
  apply String.eqb_neq; intros ->; apply H; cbn; tauto.

(** * Properties *)

(** C1. For every threshold [T] and candidate [L] the acceptance test is true
    exactly when [rank L <= rank T] for the ranks FATAL=1 .. TRACE=6, and it
    is false for every candidate when the threshold is NONE. *)
Theorem C1_accepts_iff_rank_le (T L : LogLevel) :
  (IsLogLevelAcceptable T L = true <-> rank_le L T)
  /\ IsLogLevelAcceptable NONE L = false.
Proof.
  split; [|reflexivity].
  unfold rank_le, IsLogLevelAcceptable, rank, FATAL, ERROR, WARN, DEBUG, INFO, TRACE.
  case_levels;
    (split; [ try discriminate; intros _; do 2 eexists; repeat split; lia
            | try reflexivity; intros (rl & rt & Hl & Ht & Hle);
              try discriminate; simplify_eq; lia ]).
Qed.

(** ** Dispatch *)

(** A level the threshold rejects ends both dispatch methods before any
    creator is looked at, whatever the registry holds. *)
Lemma LogIt_rejected (l : Logtor) (level : LogLevel) (logMessage : Message)
    (w : list Delivery) :
  IsLogLevelAcceptable (logLevel l) level = false ->
  LogIt l level logMessage w = Returns (false, w).
Proof. intros H. run_dispatch. rewrite H. reflexivity. Qed.

Lemma LogItWithCallDepth_rejected (l : Logtor) (level : LogLevel)
    (callDepth : Z) (logMessage : Message) (w : list Delivery) :
  IsLogLevelAcceptable (logLevel l) level = false ->
  LogItWithCallDepth l level callDepth logMessage w = Returns (false, w).
Proof. intros H. run_dispatch. rewrite H. reflexivity. Qed.

(** With no current creator, an accepted level makes [LogIt] call [IsReady]
    on the nil interface. *)
Lemma LogIt_unset_accepted (l : Logtor) (level : LogLevel)
    (logMessage : Message) (w : list Delivery) :
  currentLogCreator l = nil_interface ->
  IsLogLevelAcceptable (logLevel l) level = true ->
  LogIt l level logMessage w = Panics.
Proof. intros Hc H. run_dispatch. rewrite H, Hc. reflexivity. Qed.

(** Dispatch of an accepted level while the current creator answers both
    queries of [IsReady] alike and the fallback is a creator or unset: a
    ready current creator receives the record and its result is returned;
    when it is not ready and a fallback creator is set, the fallback alone
    receives the record and its result is returned; when it is not ready
    and there is no fallback, the result is false and nothing is written.
    The same holds for [LogItWithCallDepth]. *)
Lemma dispatch_accepted (l : Logtor) (a : Creator) (level : LogLevel)
    (callDepth : Z) (logMessage : Message) (w : list Delivery) :
  currentLogCreator l = creator a ->
  IsLogLevelAcceptable (logLevel l) level = true ->
  (IsReady a = true ->
     LogIt l level logMessage w
       = Returns (creatorLogIt a level logMessage,
                  w ++ [WroteLogIt a level logMessage])
     /\ LogItWithCallDepth l level callDepth logMessage w
       = Returns (creatorLogItWithCallDepth a level callDepth logMessage,
                  w ++ [WroteLogItWithCallDepth a level callDepth logMessage]))
  /\ (forall d : Creator,
        IsReady a = false -> defaultCreator l = creator d ->
        LogIt l level logMessage w
          = Returns (creatorLogIt d level logMessage,
                     w ++ [WroteLogIt d level logMessage])
        /\ LogItWithCallDepth l level callDepth logMessage w
          = Returns (creatorLogItWithCallDepth d level callDepth logMessage,
                     w ++ [WroteLogItWithCallDepth d level callDepth logMessage]))
  /\ (IsReady a = false -> defaultCreator l = nil_interface ->
        LogIt l level logMessage w = Returns (false, w)
        /\ LogItWithCallDepth l level callDepth logMessage w = Returns (false, w)).
Proof.
  intros Hc Hacc. split; [|split].
  - intros Hr. split; run_dispatch; rewrite Hacc, Hc; cbn; rewrite Hr;
      reflexivity.
  - intros d Hr Hd. split; run_dispatch; rewrite Hacc, Hc; cbn; rewrite Hr;
      cbn; rewrite Hd; reflexivity.
  - intros Hr Hd. split; run_dispatch; rewrite Hacc, Hc; cbn; rewrite Hr;
      cbn; rewrite Hd; reflexivity.
Qed.

(** With a creator current, [LogIt] is [LogIt_asked] at the answer the
    creator gives to both queries. *)
Lemma LogIt_asked_steady (l : Logtor) (a : Creator) (level : LogLevel)
    (callDepth : Z) (logMessage : Message) (w : list Delivery) :
  currentLogCreator l = creator a ->
  LogIt l level logMessage w
  = LogIt_asked l (IsReady a) (IsReady a) level logMessage w
  /\ LogItWithCallDepth l level callDepth logMessage w
     = LogItWithCallDepth_asked l (IsReady a) (IsReady a) level callDepth
         logMessage w.
Proof.
  intros Hc. unfold LogIt_asked, LogItWithCallDepth_asked. run_dispatch.
  by rewrite Hc.
Qed.

(** C2. With the active creator set, the level accepted and a fallback
    creator set, the record goes to the active creator when it answers
    ready to the first condition, and to the fallback alone when it answers
    not ready to both conditions; but when it answers not ready to the
    first condition and ready to the second, the record is dropped: the
    result is false and nothing is written, although a fallback is set.
    And a fallback that is a nil pointer passes the test
    [l.defaultCreator != nil]: with an active creator that is not ready,
    the call panics.  The same holds for [LogItWithCallDepth]. *)
Theorem C2_fallback_not_reached (l : Logtor) (a d : Creator)
    (level : LogLevel) (callDepth : Z) (logMessage : Message)
    (w : list Delivery) :
  currentLogCreator l = creator a ->
  IsLogLevelAcceptable (logLevel l) level = true ->
  (defaultCreator l = creator d ->
   forall first second : bool,
     LogIt_asked l first second level logMessage w
     = (if first then
          Returns (creatorLogIt a level logMessage,
                   w ++ [WroteLogIt a level logMessage])
        else if second then Returns (false, w)
        else Returns (creatorLogIt d level logMessage,
                      w ++ [WroteLogIt d level logMessage]))
     /\ LogItWithCallDepth_asked l first second level callDepth logMessage w
        = (if first then
             Returns (creatorLogItWithCallDepth a level callDepth logMessage,
                      w ++ [WroteLogItWithCallDepth a level callDepth
                              logMessage])
           else if second then Returns (false, w)
           else
             Returns (creatorLogItWithCallDepth d level callDepth logMessage,
                      w ++ [WroteLogItWithCallDepth d level callDepth
                              logMessage])))
  /\ (IsReady a = false -> defaultCreator l = nil_pointer ->
      LogIt l level logMessage w = Panics
      /\ LogItWithCallDepth l level callDepth logMessage w = Panics).
Proof.
  intros Hc Hacc. split.
  - intros Hd first second.
    unfold LogIt_asked, LogItWithCallDepth_asked. run_dispatch.
    rewrite Hacc, Hc, Hd. by destruct first, second.
  - intros Hr Hd. split; run_dispatch; rewrite Hacc, Hc; cbn; rewrite Hr;
      cbn; rewrite Hd; reflexivity.
Qed.

(** The broker is current and the console is the fallback: the record is
    dropped when the broker answers not ready, then ready; and with a nil
    pointer as fallback the call panics. *)
Lemma C2_fallback_not_reached_witness :
  let l := WithDefaultCreator (registry TRACE Broker) (creator Console) in
  let l0 := WithDefaultCreator (registry TRACE Broker) nil_pointer in
  currentLogCreator l = creator Broker
  /\ IsLogLevelAcceptable (logLevel l) FATAL = true
  /\ defaultCreator l = creator Console
  /\ LogIt_asked l false true FATAL "x" [] = Returns (false, [])
  /\ LogIt_asked l false false FATAL "x" []
     = Returns (true, [WroteLogIt Console FATAL "x"])
  /\ LogIt l0 FATAL "x" [] = Panics.
Proof.
  intros l l0. do 3 (split; [reflexivity|]). split; [|split].
  - exact (proj1 (proj1 (C2_fallback_not_reached l Broker Console FATAL 0
                           "x" [] eq_refl eq_refl) eq_refl false true)).
  - exact (proj1 (proj1 (C2_fallback_not_reached l Broker Console FATAL 0
                           "x" [] eq_refl eq_refl) eq_refl false false)).
  - exact (proj1 (proj2 (C2_fallback_not_reached l0 Broker Console FATAL 0
                           "x" [] eq_refl eq_refl) eq_refl eq_refl)).
Defined.

(** C3. With the active creator set, a level the threshold does not accept
    makes [LogIt] and [LogItWithCallDepth] return false, and no creator,
    active or fallback, receives a write. *)
Theorem C3_rejected_level_writes_nothing (l : Logtor) (a : Creator)
    (level : LogLevel) (callDepth : Z) (logMessage : Message)
    (w : list Delivery) :
  currentLogCreator l = creator a ->
  IsLogLevelAcceptable (logLevel l) level = false ->
  LogIt l level logMessage w = Returns (false, w)
  /\ LogItWithCallDepth l level callDepth logMessage w = Returns (false, w).
Proof.
  intros _ H. split.
  - by apply LogIt_rejected.
  - by apply LogItWithCallDepth_rejected.
Qed.

(** Threshold FATAL, level ERROR. *)
Lemma C3_rejected_level_writes_nothing_witness :
  currentLogCreator (registry FATAL Console) = creator Console
  /\ IsLogLevelAcceptable (logLevel (registry FATAL Console)) ERROR = false
  /\ LogIt (registry FATAL Console) ERROR "y" [] = Returns (false, [])
  /\ LogItWithCallDepth (registry FATAL Console) ERROR 2 "y" []
     = Returns (false, []).
Proof.
  split; [reflexivity|]. split; [reflexivity|].
  exact (C3_rejected_level_writes_nothing (registry FATAL Console) Console
           ERROR 2 "y" [] eq_refl eq_refl).
Defined.

(** C4. On a registry with no current creator, [LogIt] returns false only
    for a level the threshold rejects; for an accepted level the call of
    [IsReady] on the nil interface panics. *)
Theorem C4_LogIt_unset_active (l : Logtor) (level : LogLevel)
    (logMessage : Message) (w : list Delivery) :
  currentLogCreator l = nil_interface ->
  LogIt l level logMessage w
  = if IsLogLevelAcceptable (logLevel l) level then Panics
    else Returns (false, w).
Proof.
  intros Hc. destruct (IsLogLevelAcceptable (logLevel l) level) eqn:E.
  - by apply LogIt_unset_accepted.
  - by apply LogIt_rejected.
Qed.

(** [New()], [SetLogLevel(TRACE)], [LogIt(FATAL, "x")]. *)
Lemma C4_LogIt_unset_active_witness :
  SetLogLevel New TRACE = (true, set_logLevel New TRACE)
  /\ currentLogCreator (set_logLevel New TRACE) = nil_interface
  /\ LogIt (set_logLevel New TRACE) FATAL "x" [] = Panics.
Proof.
  split; [reflexivity|]. split; [reflexivity|].
  exact (C4_LogIt_unset_active (set_logLevel New TRACE) FATAL "x" [] eq_refl).
Defined.

(** C10. A level that is none of FATAL, ERROR, WARN, DEBUG, INFO, TRACE is
    accepted by no threshold, so [LogIt] with such a level returns false and
    writes to no creator, whatever the registry. *)
Theorem C10_unranked_level_never_logged (l : Logtor) (U : LogLevel)
    (logMessage : Message) (w : list Delivery) :
  ~ In U [FATAL; ERROR; WARN; DEBUG; INFO; TRACE] ->
  (forall T : LogLevel, IsLogLevelAcceptable T U = false)
  /\ LogIt l U logMessage w = Returns (false, w).
Proof.
  intros HU.
  assert (Hrej : forall T : LogLevel, IsLogLevelAcceptable T U = false).
  { intros T. unfold IsLogLevelAcceptable.
    assert (HF : (U == FATAL) = false) by other_level HU.
    assert (HE : (U == ERROR) = false) by other_level HU.
    assert (HW : (U == WARN) = false) by other_level HU.
    assert (HD : (U == DEBUG) = false) by other_level HU.
    assert (HI : (U == INFO) = false) by other_level HU.
    assert (HT : (U == TRACE) = false) by other_level HU.
    rewrite HF, HE, HW, HD, HI, HT. cbn.
    repeat match goal with |- context [if ?b then _ else _] => destruct b end;
      reflexivity. }
  split; [exact Hrej|]. apply LogIt_rejected, Hrej.
Qed.

(** The level NONE under the threshold TRACE. *)
Lemma C10_unranked_level_never_logged_witness :
  ~ In NONE [FATAL; ERROR; WARN; DEBUG; INFO; TRACE]
  /\ (forall T : LogLevel, IsLogLevelAcceptable T NONE = false)
  /\ LogIt (registry TRACE Console) NONE "x" [] = Returns (false, []).
Proof.
  assert (H : ~ In NONE [FATAL; ERROR; WARN; DEBUG; INFO; TRACE]).
  { cbn. intros [H|[H|[H|[H|[H|[H|[]]]]]]]; discriminate H. }
  split; [exact H|].
  exact (C10_unranked_level_never_logged (registry TRACE Console) NONE "x" [] H).
Defined.

(** ** Registration *)

Lemma set_logCreatorList_same (l : Logtor) :
  set_logCreatorList l (logCreatorList l) = l.
Proof. by destruct l. Qed.

Lemma add_one_null (m : gmap LogCreatorName LogCreator) (lc : LogCreator) :
  is_null lc = true -> add_one m lc = m.
Proof. by destruct lc. Qed.

(** A batch of nil creators leaves the map as it was. *)
Lemma foldl_add_one_null (logCreators : list LogCreator)
    (m : gmap LogCreatorName LogCreator) :
  forallb is_null logCreators = true -> foldl add_one m logCreators = m.
Proof.
  revert m. induction logCreators as [|lc rest IH]; intros m H; [done|].
  cbn in H. apply andb_prop in H as [Hlc Hrest].
  cbn. rewrite add_one_null by done. by apply IH.
Qed.

(** What the loop of [AddLogCreators] leaves under a name. *)
Lemma foldl_add_one_lookup (logCreators : list LogCreator)
    (m : gmap LogCreatorName LogCreator) (name : LogCreatorName) :
  foldl add_one m logCreators !! name
  = match last_named name logCreators with
    | Some c => Some (creator c)
    | None => m !! name
    end.
Proof.
  revert m. induction logCreators as [|lc rest IH]; intros m; [done|].
  cbn. rewrite IH. destruct (last_named name rest); [done|].
  destruct lc as [| |c]; cbn; try done.
  destruct (String.eqb_spec (LogName c) name) as [->|Hne].
  - by rewrite lookup_insert_eq.
  - by rewrite lookup_insert_ne.
Qed.



(** C5. [AddLogCreators] with an empty batch, or a batch of nil creators
    only, leaves the map as it was, but it returns only when a creator is
    already current; with none, indexing [logCreators[0]] of the empty batch,
    or calling [LogName] on its nil first element, panics. *)
Theorem C5_AddLogCreators_null_batch (l : Logtor)
    (logCreators : list LogCreator) :
  forallb is_null logCreators = true ->
  foldl add_one (logCreatorList l) logCreators = logCreatorList l
  /\ AddLogCreators l logCreators
     = if is_nil (currentLogCreator l) then Panics else Returns l.
Proof.
  intros Hnull. split; [by apply foldl_add_one_null|].
  unfold AddLogCreators. rewrite foldl_add_one_null by done.
  rewrite set_logCreatorList_same.
  destruct (is_nil (currentLogCreator l)); [|done].
  destruct logCreators as [|first rest]; [done|].
  cbn in Hnull. apply andb_prop in Hnull as [Hfirst _].
  by destruct first.
Qed.

(** [New().AddLogCreators(nil)], and the empty batch. *)
Lemma C5_AddLogCreators_null_batch_witness :
  forallb is_null [nil_interface] = true
  /\ AddLogCreators New [nil_interface] = Panics
  /\ AddLogCreators New [] = Panics
  /\ AddLogCreators (registry NONE Console) [nil_interface; nil_pointer]
     = Returns (registry NONE Console).
Proof.
  split; [reflexivity|]. split; [|split].
  - exact (proj2 (C5_AddLogCreators_null_batch New [nil_interface] eq_refl)).
  - exact (proj2 (C5_AddLogCreators_null_batch New [] eq_refl)).
  - exact (proj2 (C5_AddLogCreators_null_batch (registry NONE Console)
                    [nil_interface; nil_pointer] eq_refl)).
Defined.

(** The registry of the examples is the one the calls [New()],
    [AddLogCreators(Console, File, Broker)], [SetLogLevel(TRACE)] and
    [ChangeLogCreator("Broker")] build. *)
Lemma registry_reached :
  AddLogCreators New [creator Console; creator File; creator Broker]
  = Returns (registry NONE Console)
  /\ SetLogLevel (registry NONE Console) TRACE = (true, registry TRACE Console)
  /\ ChangeLogCreator (registry TRACE Console) "Broker"
     = (true, registry TRACE Broker).
Proof. repeat split; by vm_compute. Qed.



(** ** Threshold *)

Lemma IsValid_In (S : LogLevel) : IsValid S = true <-> In S LogLevelList.
Proof.
  unfold IsValid. rewrite existsb_exists. split.
  - intros (x & Hx & Heq). apply String.eqb_eq in Heq. by subst.
  - intros H. exists S. split; [done | apply String.eqb_refl].
Qed.

(** C7. [SetLogLevel] with a value that is none of the seven levels returns
    false and leaves the registry, and so the threshold, as it was; with one
    of the seven levels it returns true and the threshold is that level, the
    other fields unchanged. *)
Theorem C7_SetLogLevel (l : Logtor) (S : LogLevel) :
  (~ In S LogLevelList -> SetLogLevel l S = (false, l))
  /\ (In S LogLevelList ->
      exists l',
        SetLogLevel l S = (true, l')
        /\ logLevel l' = S
        /\ logCreatorList l' = logCreatorList l
        /\ currentLogCreator l' = currentLogCreator l
        /\ defaultCreator l' = defaultCreator l).
Proof.
  unfold SetLogLevel. split; intros H.
  - destruct (IsValid S) eqn:E; [|done].
    exfalso. by apply H, IsValid_In.
  - apply IsValid_In in H. rewrite H. by eexists.
Qed.


(** ** Activation *)

Lemma size_lookup_Some (payload : gmap string string) (k v : string) :
  payload !! k = Some v -> (size payload =? 0)%nat = false.
Proof.
  intros H. apply Nat.eqb_neq. intros Hz.
  apply map_size_empty_inv in Hz. subst. by rewrite lookup_empty in H.
Qed.

Lemma size_nonempty (m : gmap LogCreatorName LogCreator) :
  m <> ∅ -> (size m =? 0)%nat = false.
Proof.
  intros H. apply Nat.eqb_neq. intros Hz. by apply H, map_size_empty_inv.
Qed.

(** C8. For a name that is not registered, [ChangeLogCreator] returns false
    and leaves the registry, and so the current creator, as it was; and the
    handler [ChangeActiveLogCreator], given that name in a well-formed POST
    on a registry with a current creator, leaves the registry as it was and
    answers 200 with the old name as both the old and the current one. *)
Theorem C8_unknown_name_changes_nothing (l : Logtor) (name : LogCreatorName) :
  logCreatorList l !! name = None ->
  ChangeLogCreator l name = (false, l)
  /\ forall (a : Creator) (payload : gmap string string),
       currentLogCreator l = creator a ->
       logCreatorList l <> ∅ ->
       payload !! "log_creator" = Some name ->
       ChangeActiveLogCreator l {| Method := MethodPost; Body := Some payload |}
       = Returns (l, {| StatusCode := StatusOK;
                        Written := Some {| OldLogCreator := LogName a;
                                           CurrentLogCreator := LogName a |} |}).
Proof.
  intros Hnone.
  assert (Hchange : ChangeLogCreator l name = (false, l))
    by (unfold ChangeLogCreator; by rewrite Hnone).
  split; [exact Hchange|].
  intros a payload Hcur Hne Hpay. unfold ChangeActiveLogCreator.
  rewrite (size_nonempty _ Hne). cbn [Method Body negb].
  rewrite (size_lookup_Some _ _ _ Hpay), Hcur, Hpay, Hchange.
  reflexivity.
Qed.

(** The name "nonexistent" on the registry of Console, File and Broker. *)
Lemma C8_unknown_name_changes_nothing_witness :
  let l := registry TRACE Console in
  logCreatorList l !! "nonexistent" = None
  /\ ChangeLogCreator l "nonexistent" = (false, l)
  /\ ChangeActiveLogCreator l
       {| Method := MethodPost;
          Body := Some {[ "log_creator" := "nonexistent" ]} |}
     = Returns (l, {| StatusCode := StatusOK;
                      Written := Some {| OldLogCreator := "Console";
                                         CurrentLogCreator := "Console" |} |}).
Proof.
  intros l.
  assert (Hnone : logCreatorList l !! "nonexistent" = None) by by vm_compute.
  split; [exact Hnone|].
  pose proof (C8_unknown_name_changes_nothing l "nonexistent" Hnone) as [H1 H2].
  split; [exact H1|].
  apply (H2 Console); [reflexivity | | by vm_compute].
  intros Hempty. apply (f_equal (fun m => m !! "Console")) in Hempty.
  vm_compute in Hempty. discriminate Hempty.
Defined.

(** ** Locking *)

(** [LogIt] never touches the mutex. *)
Lemma LogIt_ops_lock_free (l : Logtor) (level : LogLevel) :
  forallb (fun o => negb (is_mutex_op o)) (LogIt_ops l level) = true.
Proof.
  unfold LogIt_ops.
  destruct (LogLevel_IsLogLevelAcceptable (logLevel l) level); [|done].
  destruct (currentLogCreator l) as [| |c]; [done | done |].
  by destruct (IsReady c), (is_nil (defaultCreator l)).
Qed.

(** [ChangeLogCreator] takes the shared lock and never the exclusive one. *)
Lemma ChangeLogCreator_ops_shared (l : Logtor) (name : LogCreatorName) :
  takes RLock (ChangeLogCreator_ops l name) = true
  /\ takes Lock (ChangeLogCreator_ops l name) = false.
Proof.
  unfold ChangeLogCreator_ops.
  destruct (logCreatorList l !! name); split; reflexivity.
Qed.

(** C9. The code does not follow the stated discipline: [LogIt] takes no
    lock at all and [ChangeLogCreator], which stores to [currentLogCreator],
    takes the shared lock only.  On the registry of Console, File and
    Broker, [ChangeLogCreator("File")] in one goroutine and [LogIt(FATAL, _)]
    in another reach a state where the store and the load of
    [currentLogCreator] are both next; two goroutines in [ChangeLogCreator]
    are inside the shared lock together, both about to store; and
    [AddLogCreators], which tests [currentLogCreator] after its [Unlock],
    meets the store of a [ChangeLogCreator]. *)
Theorem C9_ChangeLogCreator_races :
  (forall (l : Logtor) (level : LogLevel),
     forallb (fun o => negb (is_mutex_op o)) (LogIt_ops l level) = true)
  /\ (forall (l : Logtor) (name : LogCreatorName),
        takes Lock (ChangeLogCreator_ops l name) = false)
  /\ (exists schedule c,
        exec schedule
          (start [ChangeLogCreator_ops (registry TRACE Console) "File";
                  LogIt_ops (registry TRACE Console) FATAL]) = Some c
        /\ next_op c 0 = Some (Store F_currentLogCreator)
        /\ next_op c 1 = Some (Load F_currentLogCreator)
        /\ races c 0 1 = true)
  /\ (exists schedule c,
        exec schedule
          (start [ChangeLogCreator_ops (registry TRACE Console) "File";
                  ChangeLogCreator_ops (registry TRACE Console) "Broker"])
          = Some c
        /\ readers (mutex c) = 2
        /\ next_op c 0 = Some (Store F_currentLogCreator)
        /\ next_op c 1 = Some (Store F_currentLogCreator)
        /\ races c 0 1 = true)
  /\ (exists schedule c,
        exec schedule
          (start [AddLogCreators_ops (registry TRACE Console) [creator Console2];
                  ChangeLogCreator_ops (registry TRACE Console) "File"])
          = Some c
        /\ mutex c = {| readers := 1; writer := false |}
        /\ next_op c 0 = Some (Load F_currentLogCreator)
        /\ next_op c 1 = Some (Store F_currentLogCreator)
        /\ races c 0 1 = true).
Proof.
  split; [exact LogIt_ops_lock_free|].
  split; [intros l name; apply ChangeLogCreator_ops_shared|].
  split; [|split].
  - exists [0; 0; 0; 1], {|
      mutex := {| readers := 1; writer := false |};
      goroutines := [[Store F_currentLogCreator; RUnlock];
                     [Load F_currentLogCreator; Load F_currentLogCreator]] |}.
    repeat split; by vm_compute.
  - exists [0; 1; 0; 1; 0; 1], {|
      mutex := {| readers := 2; writer := false |};
      goroutines := [[Store F_currentLogCreator; RUnlock];
                     [Store F_currentLogCreator; RUnlock]] |}.
    repeat split; by vm_compute.
  - exists [0; 0; 0; 1; 1; 1], {|
      mutex := {| readers := 1; writer := false |};
      goroutines := [[Load F_currentLogCreator];
                     [Store F_currentLogCreator; RUnlock]] |}.
    repeat split; by vm_compute.
Qed.

(** *** Goroutines that follow the discipline do not race *)

Lemma holders_insert (x h h' : Held) (hs : list Held) (i : nat) :
  hs !! i = Some h ->
  holders x (<[i := h']> hs) + (if bool_decide (h = x) then 1 else 0)
  = holders x hs + (if bool_decide (h' = x) then 1 else 0).
Proof.
  revert i. induction hs as [|k hs IH]; intros i Hi; [done|].
  destruct i as [|i]; simpl in Hi.
  - inversion Hi; subst. simpl. case_holders; lia.
  - specialize (IH i Hi). simpl. revert IH. case_holders; lia.
Qed.

Lemma holders_lookup (x : Held) (hs : list Held) (i : nat) :
  hs !! i = Some x -> 1 <= holders x hs.
Proof.
  revert i. induction hs as [|k hs IH]; intros i Hi; [done|].
  destruct i as [|i]; simpl in Hi; simpl.
  - inversion Hi; subst. rewrite bool_decide_eq_true_2 by done. lia.
  - specialize (IH i Hi). lia.
Qed.

Lemma holders_lookup2 (x : Held) (hs : list Held) (i j : nat) :
  i <> j -> hs !! i = Some x -> hs !! j = Some x -> 2 <= holders x hs.
Proof.
  revert i j. induction hs as [|k hs IH]; intros i j Hne Hi Hj; [done|].
  destruct i as [|i], j as [|j]; simpl in Hi, Hj; simpl; try done.
  - inversion Hi; subst. rewrite bool_decide_eq_true_2 by done.
    pose proof (holders_lookup _ _ _ Hj). lia.
  - inversion Hj; subst. rewrite bool_decide_eq_true_2 by done.
    pose proof (holders_lookup _ _ _ Hi). lia.
  - assert (H : i <> j) by congruence. specialize (IH i j H Hi Hj). lia.
Qed.

Lemma guarded_step (h : Held) (o : Op) (rest : list Op) :
  guarded h (o :: rest) = true -> guarded (held_after o h) rest = true.
Proof. destruct o; cbn; intros H; apply andb_prop in H as [_ H]; exact H. Qed.

(** One step of a goroutine keeps the configuration consistent. *)
Lemma step_consistent (hs : list Held) (c c' : Config) (i : nat) :
  consistent hs c -> step i c = Some c' ->
  exists hs', consistent hs' c'.
Proof.
  intros (Hg & Hr & Hw & Hle & Hex) Hstep. unfold step in Hstep.
  destruct (goroutines c !! i) as [[|o rest]|] eqn:Hops; try done.
  destruct (mutex_step o (mutex c)) as [m'|] eqn:Hm; [|done].
  inversion Hstep; subst c'; clear Hstep.
  destruct (Forall2_lookup_r _ _ _ _ _ Hg Hops) as (h & Hh & Hgh).
  exists (<[i := held_after o h]> hs).
  pose proof (holders_insert Shared h (held_after o h) hs i Hh) as HS.
  pose proof (holders_insert Excl h (held_after o h) hs i Hh) as HE.
  pose proof (holders_lookup h hs i Hh) as Hone.
  assert (Hg' : Forall2 (fun h ops => guarded h ops = true)
                  (<[i := held_after o h]> hs) (<[i := rest]> (goroutines c))).
  { apply Forall2_insert; [done | by apply guarded_step]. }
  unfold consistent. cbn [mutex goroutines].
  split; [exact Hg'|]. clear Hg Hg' Hops.
  destruct (mutex c) as [r wr]. cbn [readers writer] in Hr, Hw. subst r.
  assert (Hwr : wr = true <-> holders Excl hs = 1).
  { rewrite Hw, bool_decide_eq_true. lia. }
  destruct o; cbn [guarded] in Hgh; cbn [mutex_step readers writer] in Hm;
    cbn [held_after] in HS, HE |- *;
    apply andb_prop in Hgh as [Hgd _].
  - (* RLock *)
    apply bool_decide_eq_true_1 in Hgd; subst h. decide_held.
    destruct wr; [done|]. inversion Hm; subst m'. cbn [readers writer].
    assert (holders Excl hs <> 1) by (intros E; apply Hwr in E; done).
    repeat split; try lia.
    symmetry. apply bool_decide_eq_false_2. lia.
  - (* RUnlock *)
    apply bool_decide_eq_true_1 in Hgd; subst h. decide_held.
    destruct (holders Shared hs) as [|n] eqn:En; [lia|].
    inversion Hm; subst m'. cbn [readers writer].
    repeat split; try lia.
    rewrite Hw. apply bool_decide_ext. lia.
  - (* Lock *)
    apply bool_decide_eq_true_1 in Hgd; subst h. decide_held.
    destruct wr; [done|].
    destruct (holders Shared hs) as [|n] eqn:En; [|done].
    inversion Hm; subst m'. cbn [readers writer].
    assert (holders Excl hs <> 1) by (intros E; apply Hwr in E; done).
    repeat split; try lia.
    symmetry. apply bool_decide_eq_true_2. lia.
  - (* Unlock *)
    apply bool_decide_eq_true_1 in Hgd; subst h. decide_held.
    destruct wr; [|done]. inversion Hm; subst m'. cbn [readers writer].
    repeat split; try lia.
    symmetry. apply bool_decide_eq_false_2. lia.
  - (* Load *)
    inversion Hm; subst m'. cbn [readers writer].
    rewrite list_insert_id by done. by repeat split.
  - (* Store *)
    inversion Hm; subst m'. cbn [readers writer].
    rewrite list_insert_id by done. by repeat split.
Qed.

Lemma exec_consistent (schedule : list nat) (hs : list Held) (c c' : Config) :
  consistent hs c -> exec schedule c = Some c' ->
  exists hs', consistent hs' c'.
Proof.
  revert hs c. induction schedule as [|i schedule IH]; intros hs c Hc Hex.
  - inversion Hex; subst. by exists hs.
  - cbn in Hex. destruct (step i c) as [c1|] eqn:Hstep; [|done].
    destruct (step_consistent _ _ _ _ Hc Hstep) as [hs1 Hc1].
    by apply (IH hs1 c1).
Qed.

(** No two goroutines of a consistent configuration race. *)
Lemma consistent_no_race (hs : list Held) (c : Config) (i j : nat) :
  consistent hs c -> races c i j = false.
Proof.
  intros (Hg & Hr & Hw & Hle & Hex).
  destruct (races c i j) eqn:Hrace; [exfalso|done].
  unfold races in Hrace. apply andb_prop in Hrace as [Hne Hconf].
  apply bool_decide_eq_true_1 in Hne. unfold next_op in Hconf.
  destruct (goroutines c !! i) as [[|a ra]|] eqn:Hi; try done.
  destruct (goroutines c !! j) as [[|b rb]|] eqn:Hj; try done.
  destruct (Forall2_lookup_r _ _ _ _ _ Hg Hi) as (hi & Hhi & Hgi).
  destruct (Forall2_lookup_r _ _ _ _ _ Hg Hj) as (hj & Hhj & Hgj).
  assert (Hboth : hi <> Free /\ hj <> Free /\ (hi = Excl \/ hj = Excl)).
  { destruct a, b; cbn in Hconf; try done; cbn in Hgi, Hgj;
      apply andb_prop in Hgi as [Hgi _]; apply andb_prop in Hgj as [Hgj _];
      repeat match goal with
        | H : bool_decide _ = true |- _ => apply bool_decide_eq_true_1 in H
        | H : negb (bool_decide _) = true |- _ =>
            apply negb_true_iff, bool_decide_eq_false_1 in H
        end; subst; repeat split; auto; done. }
  destruct Hboth as (Hfi & Hfj & Hexcl).
  pose proof (holders_lookup _ _ _ Hhi) as Hci.
  pose proof (holders_lookup _ _ _ Hhj) as Hcj.
  destruct hi, hj; try done; destruct Hexcl as [?|?]; try done.
  - lia.
  - lia.
  - pose proof (holders_lookup2 _ _ _ _ Hne Hhi Hhj). lia.
  - pose proof (holders_lookup2 _ _ _ _ Hne Hhi Hhj). lia.
Qed.

Lemma start_consistent (gs : list (list Op)) :
  forallb (guarded Free) gs = true ->
  consistent (replicate (length gs) Free) (start gs).
Proof.
  intros Hgs.
  assert (Hz : forall x n, x <> Free -> holders x (replicate n Free) = 0).
  { intros x n Hx. induction n as [|n IH]; [done|]. cbn.
    rewrite bool_decide_eq_false_2 by done. exact IH. }
  unfold consistent. cbn [start mutex goroutines readers writer].
  rewrite !Hz by done. repeat split; try lia.
  induction gs as [|g gs IH]; [constructor|].
  cbn in Hgs. apply andb_prop in Hgs as [Hg Hgs].
  cbn. constructor; [exact Hg | by apply IH].
Qed.

(** Goroutines whose methods all follow the discipline never reach a race,
    whatever the schedule. *)
Theorem guarded_never_races (gs : list (list Op)) (schedule : list nat)
    (c : Config) (i j : nat) :
  forallb (guarded Free) gs = true ->
  exec schedule (start gs) = Some c ->
  races c i j = false.
Proof.
  intros Hgs Hex.
  destruct (exec_consistent _ _ _ _ (start_consistent gs Hgs) Hex) as [hs Hc].
  by apply (consistent_no_race hs).
Qed.

(** [ChangeLogCreator] under the exclusive lock and [LogIt] under the shared
    lock, as the specification has them, follow the discipline; the methods
    as written do not. *)
Lemma discipline_of_the_specification (l : Logtor) (name : LogCreatorName)
    (level : LogLevel) :
  guarded Free (exclusively (ChangeLogCreator_ops l name)) = true
  /\ guarded Free (under_RLock (LogIt_ops l level)) = true.
Proof.
  split.
  - unfold ChangeLogCreator_ops. by destruct (logCreatorList l !! name).
  - unfold LogIt_ops.
    destruct (LogLevel_IsLogLevelAcceptable (logLevel l) level); [|done].
    destruct (currentLogCreator l) as [| |c]; [done | done |].
    by destruct (IsReady c), (is_nil (defaultCreator l)).
Qed.

(** Under the discipline of the specification a [ChangeLogCreator] and a
    [LogIt] that run together never race, whatever the registry, the
    arguments and the schedule: the races of C9 come from the shared lock
    in [ChangeLogCreator] and from the missing lock in [LogIt]. *)
Corollary specified_discipline_never_races (l : Logtor)
    (name : LogCreatorName) (level : LogLevel) (schedule : list nat)
    (c : Config) (i j : nat) :
  exec schedule
    (start [exclusively (ChangeLogCreator_ops l name);
            under_RLock (LogIt_ops l level)]) = Some c ->
  races c i j = false.
Proof.
  apply guarded_never_races.
  destruct (discipline_of_the_specification l name level) as [H1 H2].
  cbn [forallb]. by rewrite H1, H2.
Qed.

(** * Further properties of the code *)

(** ** The order of the levels *)

Lemma accepted_rank_le (T L : LogLevel) :
  IsLogLevelAcceptable T L = true <-> rank_le L T.
Proof.
  unfold rank_le, IsLogLevelAcceptable, rank, FATAL, ERROR, WARN, DEBUG,
    INFO, TRACE.
  case_levels;
    (split; [ try discriminate; intros _; do 2 eexists; repeat split; lia
            | try reflexivity; intros (rl & rt & Hl & Ht & Hle);
              try discriminate; simplify_eq; lia ]).
Qed.

Lemma rank_record_level (L : LogLevel) :
  In L record_levels <-> exists n, rank L = Some n.
Proof.
  unfold record_levels, rank, FATAL, ERROR, WARN, DEBUG, INFO, TRACE.
  split.
  - intros [<-|[<-|[<-|[<-|[<-|[<-|[]]]]]]]; cbn; by eexists.
  - case_levels; intros [r Hr]; try discriminate; tauto.
Qed.

Lemma rank_inj (A B : LogLevel) (r : nat) :
  rank A = Some r -> rank B = Some r -> A = B.
Proof.
  unfold rank, FATAL, ERROR, WARN, DEBUG, INFO, TRACE.
  case_levels; intros HA HB; simplify_eq; reflexivity.
Qed.

(** X1. [IsLogLevelAcceptable] is a total order on the six record levels:
    a level is accepted at itself exactly when it is a record level, and
    acceptance is transitive, antisymmetric and total.  So a level accepted
    at a threshold is accepted at every threshold that accepts that
    threshold, and with it every level it accepts itself. *)
Theorem IsLogLevelAcceptable_total_order (A B C : LogLevel) :
  (IsLogLevelAcceptable A A = true <-> In A record_levels)
  /\ (IsLogLevelAcceptable A B = true -> IsLogLevelAcceptable B C = true ->
      IsLogLevelAcceptable A C = true)
  /\ (IsLogLevelAcceptable A B = true -> IsLogLevelAcceptable B A = true ->
      A = B)
  /\ (In A record_levels -> In B record_levels ->
      IsLogLevelAcceptable A B = true \/ IsLogLevelAcceptable B A = true).
Proof.
  rewrite !accepted_rank_le, !rank_record_level. unfold rank_le.
  split; [|split; [|split]].
  - split.
    + intros (n & _ & Hn & _). by exists n.
    + intros [n Hn]. exists n, n. repeat split; done.
  - intros (b & a & Hb & Ha & Hba) (c & b' & Hc & Hb' & Hcb).
    simplify_eq. exists c, a. repeat split; try done. lia.
  - intros (b & a & Hb & Ha & Hba) (a' & b' & Ha' & Hb' & Hab).
    rewrite Ha in Ha'. rewrite Hb in Hb'. inversion Ha'. inversion Hb'.
    subst a' b'. assert (a = b) by lia. subst a. by apply (rank_inj A B b).
  - intros [a Ha] [b Hb]. destruct (le_ge_dec a b) as [Hle|Hge].
    + right. exists a, b. repeat split; done.
    + left. exists b, a. repeat split; try done.
Qed.

(** X2. [GetColorForLogLevel] gives a colour of its own to the record levels
    only: the result is [ResetColor] exactly for NONE and the strings that
    are no level at all, and it is never [NoneColor]. *)
Theorem GetColorForLogLevel_reset (level : LogLevel) :
  (GetColorForLogLevel level = ResetColor <-> ~ In level record_levels)
  /\ GetColorForLogLevel level <> NoneColor.
Proof.
  unfold GetColorForLogLevel, record_levels, FATAL, ERROR, WARN, DEBUG, INFO,
    TRACE.
  case_levels; (split; [split|]);
    try (intros H; vm_compute in H; discriminate H);
    try (intros H; exfalso; apply H; tauto);
    try (intros _ [H|[H|[H|[H|[H|[H|[]]]]]]]; congruence);
    try reflexivity.
Qed.

(** ** Registration and activation together *)

(** A call of [AddLogCreators] that returns has run its loop over the whole
    batch and has touched neither the threshold nor the fallback. *)
Lemma AddLogCreators_returns (l l' : Logtor) (logCreators : list LogCreator) :
  AddLogCreators l logCreators = Returns l' ->
  logCreatorList l' = foldl add_one (logCreatorList l) logCreators
  /\ logLevel l' = logLevel l
  /\ defaultCreator l' = defaultCreator l.
Proof.
  unfold AddLogCreators. cbn [currentLogCreator set_logCreatorList].
  destruct (is_nil (currentLogCreator l)).
  - destruct logCreators as [|first rest]; [done|].
    destruct (call_LogName first) as [name|]; [|done].
    unfold ChangeLogCreator. cbn [logCreatorList set_logCreatorList].
    destruct (foldl add_one (logCreatorList l) (first :: rest) !! name);
      intros H; inversion H; subst l'; done.
  - intros H; inversion H; subst l'; done.
Qed.

Lemma last_named_Some (name : LogCreatorName) (logCreators : list LogCreator)
    (c : Creator) :
  last_named name logCreators = Some c ->
  In (creator c) logCreators /\ LogName c = name.
Proof.
  induction logCreators as [|lc rest IH]; [done|]. cbn.
  destruct (last_named name rest) as [c'|].
  - intros H; inversion H; subst c'. destruct (IH eq_refl). tauto.
  - destruct lc as [| |c']; try done.
    destruct (String.eqb_spec (LogName c') name); [|done].
    intros H; inversion H; subst c'. tauto.
Qed.

Lemma last_named_In (logCreators : list LogCreator) (c : Creator) :
  In (creator c) logCreators ->
  exists c', last_named (LogName c) logCreators = Some c'.
Proof.
  induction logCreators as [|lc rest IH]; [done|]. cbn. intros [->|Hin].
  - destruct (last_named (LogName c) rest); [by eexists|].
    rewrite String.eqb_refl. by eexists.
  - destruct (IH Hin) as [c' ->]. by eexists.
Qed.

(** X3. Once a batch is registered, every creator of the batch can be
    activated by its name: [ChangeLogCreator] returns true, and the creator
    it makes current is the last one of the batch that carries the name. *)
Theorem AddLogCreators_then_ChangeLogCreator (l l' : Logtor)
    (logCreators : list LogCreator) (c : Creator) :
  AddLogCreators l logCreators = Returns l' ->
  In (creator c) logCreators ->
  exists c',
    last_named (LogName c) logCreators = Some c'
    /\ In (creator c') logCreators
    /\ LogName c' = LogName c
    /\ ChangeLogCreator l' (LogName c)
       = (true, set_currentLogCreator l' (creator c')).
Proof.
  intros Hret Hin.
  destruct (last_named_In _ _ Hin) as [c' Hc'].
  destruct (last_named_Some _ _ _ Hc') as [Hin' Hname].
  exists c'. repeat split; try done.
  destruct (AddLogCreators_returns _ _ _ Hret) as (Hmap & _ & _).
  unfold ChangeLogCreator. rewrite Hmap, foldl_add_one_lookup, Hc'. done.
Qed.

(** [AddLogCreators(Console, Console2)] on a fresh registry, then
    [ChangeLogCreator("Console")]. *)
Lemma AddLogCreators_then_ChangeLogCreator_witness :
  exists l',
    AddLogCreators New [creator Console; creator Console2] = Returns l'
    /\ In (creator Console) [creator Console; creator Console2]
    /\ exists c',
         last_named "Console" [creator Console; creator Console2] = Some c'
         /\ ChangeLogCreator l' "Console"
            = (true, set_currentLogCreator l' (creator c')).
Proof.
  eexists. split; [reflexivity|]. split; [by left|].
  destruct (AddLogCreators_then_ChangeLogCreator New _
              [creator Console; creator Console2] Console eq_refl
              (or_introl eq_refl)) as (c' & H1 & _ & _ & H2).
  exists c'. split; [exact H1 | exact H2].
Defined.

(** X4. [AddLogCreators] only adds: a name that no creator of the batch
    carries keeps the entry it had, no registered name is lost, and the
    threshold and the fallback creator stay as they were. *)
Theorem AddLogCreators_frame (l l' : Logtor) (logCreators : list LogCreator) :
  AddLogCreators l logCreators = Returns l' ->
  (forall name, last_named name logCreators = None ->
     logCreatorList l' !! name = logCreatorList l !! name)
  /\ (forall name, is_Some (logCreatorList l !! name) ->
        is_Some (logCreatorList l' !! name))
  /\ logLevel l' = logLevel l
  /\ defaultCreator l' = defaultCreator l.
Proof.
  intros Hret.
  destruct (AddLogCreators_returns _ _ _ Hret) as (Hmap & Hlevel & Hdef).
  repeat split; try done.
  - intros name Hnone. by rewrite Hmap, foldl_add_one_lookup, Hnone.
  - intros name Hsome. rewrite Hmap, foldl_add_one_lookup.
    by destruct (last_named name logCreators).
Qed.

(** A second batch on the registry of Console, File and Broker. *)
Lemma AddLogCreators_frame_witness :
  exists l',
    AddLogCreators (registry TRACE Console) [creator Console2; nil_interface]
      = Returns l'
    /\ logCreatorList l' !! "File" = Some (creator File)
    /\ logLevel l' = TRACE.
Proof.
  eexists. split; [reflexivity|].
  destruct (AddLogCreators_frame (registry TRACE Console) _
              [creator Console2; nil_interface] eq_refl)
    as (Hother & _ & Hlevel & _).
  split; [|exact Hlevel].
  rewrite (Hother "File" eq_refl). by vm_compute.
Defined.

(** ** What every reachable registry satisfies *)

Lemma add_one_keyed (m : gmap LogCreatorName LogCreator) (lc : LogCreator) :
  (forall name x, m !! name = Some x ->
     exists c, x = creator c /\ LogName c = name) ->
  forall name x, add_one m lc !! name = Some x ->
    exists c, x = creator c /\ LogName c = name.
Proof.
  intros Hm name x. destruct lc as [| |c]; cbn; try apply Hm.
  destruct (decide (LogName c = name)) as [<-|Hne].
  - rewrite lookup_insert_eq. intros H; inversion H; subst. by exists c.
  - rewrite lookup_insert_ne by done. apply Hm.
Qed.

Lemma foldl_add_one_keyed (logCreators : list LogCreator)
    (m : gmap LogCreatorName LogCreator) :
  (forall name x, m !! name = Some x ->
     exists c, x = creator c /\ LogName c = name) ->
  forall name x, foldl add_one m logCreators !! name = Some x ->
    exists c, x = creator c /\ LogName c = name.
Proof.
  revert m. induction logCreators as [|lc rest IH]; intros m Hm; [done|].
  cbn. apply IH. by apply add_one_keyed.
Qed.

Lemma ChangeLogCreator_invariant (l : Logtor) (name : LogCreatorName) :
  keyed l -> current_registered l ->
  keyed (ChangeLogCreator l name).2
  /\ current_registered (ChangeLogCreator l name).2.
Proof.
  intros Hk Hc. unfold ChangeLogCreator.
  destruct (logCreatorList l !! name) as [lc|] eqn:Hlk; [|done].
  split; [exact Hk|].
  destruct (Hk _ _ Hlk) as (c & -> & <-).
  unfold current_registered. cbn. by rewrite Hlk.
Qed.

Lemma AddLogCreators_invariant (l l' : Logtor)
    (logCreators : list LogCreator) :
  keyed l -> current_registered l ->
  AddLogCreators l logCreators = Returns l' ->
  keyed l' /\ current_registered l'.
Proof.
  intros Hk Hc Hret.
  destruct (AddLogCreators_returns _ _ _ Hret) as (Hmap & _ & _).
  assert (Hk' : keyed l').
  { unfold keyed. rewrite Hmap. by apply foldl_add_one_keyed. }
  split; [exact Hk'|].
  unfold AddLogCreators in Hret.
  cbn [currentLogCreator set_logCreatorList] in Hret.
  unfold current_registered in Hc.
  destruct (currentLogCreator l) as [| |a] eqn:Hcur; cbn [is_nil] in Hret.
  - destruct logCreators as [|[| |first] rest]; try done.
    cbn [call_LogName] in Hret. unfold ChangeLogCreator in Hret.
    cbn [logCreatorList set_logCreatorList] in Hret.
    destruct (last_named_In (creator first :: rest) first (or_introl eq_refl))
      as [c' Hc'].
    rewrite foldl_add_one_lookup, Hc' in Hret. cbn [snd] in Hret.
    inversion Hret; subst l'. unfold current_registered.
    cbn [currentLogCreator set_currentLogCreator logCreatorList
         set_logCreatorList].
    destruct (last_named_Some _ _ _ Hc') as [_ ->].
    change (foldl add_one (add_one (logCreatorList l) (creator first)) rest)
      with (foldl add_one (logCreatorList l) (creator first :: rest)).
    rewrite foldl_add_one_lookup, Hc'. by eexists.
  - done.
  - inversion Hret; subst l'. unfold current_registered.
    cbn [currentLogCreator logCreatorList set_logCreatorList]. rewrite Hcur.
    rewrite foldl_add_one_lookup.
    by destruct (last_named (LogName a) logCreators).
Qed.

(** The calls that return keep the map keyed and the current creator
    registered. *)
Lemma reachable_keyed_registered (l : Logtor) :
  reachable l -> keyed l /\ current_registered l.
Proof.
  induction 1 as [ | l logCreators _ [Hk Hc] | l lc _ [Hk Hc]
                 | l level _ [Hk Hc] | l name _ [Hk Hc]
                 | l l' logCreators _ [Hk Hc] Hret
                 | l l' r a _ [Hk Hc] Hret | l r _ [Hk Hc] ].
  - split; [|done]. intros name lc H. cbn in H.
    by rewrite lookup_empty in H.
  - split.
    + unfold keyed, AddLogCreators_left. cbn [logCreatorList set_logCreatorList].
      by apply foldl_add_one_keyed.
    + unfold current_registered, AddLogCreators_left in *.
      cbn [currentLogCreator logCreatorList set_logCreatorList].
      destruct (currentLogCreator l) as [| |a]; try done.
      rewrite foldl_add_one_lookup.
      by destruct (last_named (LogName a) logCreators).
  - done.
  - unfold SetLogLevel. by destruct (IsValid level).
  - by apply ChangeLogCreator_invariant.
  - by apply (AddLogCreators_invariant l l' logCreators).
  - unfold ChangeActiveLogCreator in Hret.
    destruct (size (logCreatorList l) =? 0)%nat; [by inversion Hret; subst|].
    destruct (negb (Method r == MethodPost)); [by inversion Hret; subst|].
    destruct (Body r) as [payload|]; [|by inversion Hret; subst].
    destruct (size payload =? 0)%nat; [by inversion Hret; subst|].
    destruct (call_LogName (currentLogCreator l)) as [old|]; [|done].
    destruct (payload !! "log_creator") as [v|]; [|by inversion Hret; subst].
    pose proof (ChangeLogCreator_invariant l v Hk Hc) as Hinv.
    destruct (ChangeLogCreator l v) as [ok l1]. cbn [snd] in Hinv.
    destruct ok; by inversion Hret; subst.
  - unfold SetLogLevelHandlerFunc.
    destruct (size (logCreatorList l) =? 0)%nat; [done|].
    destruct (negb (TextMethod r == MethodPost)); [done|].
    destruct (TextBody r) as [payload|]; [|done].
    unfold SetLogLevel. by destruct (IsValid payload).
Qed.

(** The registry of Console, File and Broker is reachable. *)
Lemma registry_reachable : reachable (registry TRACE Console).
Proof.
  destruct registry_reached as (Hadd & Hset & _).
  change (registry TRACE Console)
    with (true, registry TRACE Console).2.
  rewrite <- Hset. apply reach_SetLogLevel.
  apply (reach_AddLogCreators New _ _ reach_New Hadd).
Defined.

(** A batch that starts with nil, on a fresh registry: the call stores the
    console and panics on [logCreators[0].LogName()]; a caller that recovers
    holds a registry with a creator stored and none current. *)
Lemma recovered_reachable :
  reachable (AddLogCreators_left New [nil_interface; creator Console]).
Proof. apply reach_AddLogCreators_left, reach_New. Defined.

(** X5. Every registry built from [New()] by calls that return, or by calls
    of [AddLogCreators] that panic and are recovered from, keeps its map and
    its current creator in step: each entry of the map is a non-nil creator
    stored under its own name, the current creator is never a nil pointer,
    and when it is set its name is a registered name.  The current creator
    can be unset while the map holds creators. *)
Theorem reachable_invariant (l : Logtor) :
  reachable l ->
  (forall name lc, logCreatorList l !! name = Some lc ->
     exists c, lc = creator c /\ LogName c = name)
  /\ currentLogCreator l <> nil_pointer
  /\ (forall c, currentLogCreator l = creator c ->
      is_Some (logCreatorList l !! LogName c)).
Proof.
  intros Hreach.
  destruct (reachable_keyed_registered l Hreach) as [Hk Hcur].
  split; [exact Hk|]. unfold current_registered in Hcur.
  destruct (currentLogCreator l) as [| |a]; split; try done.
  intros c Hc. by inversion Hc; subst.
Qed.

Lemma reachable_invariant_witness :
  reachable (registry TRACE Console)
  /\ currentLogCreator (registry TRACE Console) = creator Console
  /\ is_Some (logCreatorList (registry TRACE Console) !! "Console")
  /\ reachable (AddLogCreators_left New [nil_interface; creator Console])
  /\ currentLogCreator (AddLogCreators_left New [nil_interface; creator Console])
     = nil_interface
  /\ logCreatorList (AddLogCreators_left New [nil_interface; creator Console])
       !! "Console" = Some (creator Console).
Proof.
  split; [exact registry_reachable|]. split; [reflexivity|].
  split.
  - exact (proj2 (proj2 (reachable_invariant (registry TRACE Console)
                           registry_reachable)) Console eq_refl).
  - split; [exact recovered_reachable|]. split; [reflexivity|].
    destruct (proj1 (reachable_invariant _ recovered_reachable) "Console"
                (creator Console)) as (c & _ & _); [by vm_compute|].
    by vm_compute.
Defined.

(** ** Dispatch on a reachable registry *)

(** X6. On a reachable registry, [LogIt] and [LogItWithCallDepth] panic in
    two cases only, both on an accepted level: no creator is current, which
    a recovered panic of [AddLogCreators] leaves also with creators stored,
    or the current creator is not ready and the fallback is a nil pointer,
    which passes the test [l.defaultCreator != nil].  With no creator
    current every accepted level panics.  With a creator current the same
    holds whatever it answers to the two queries of [IsReady]: a panic needs
    both answers to be false and a nil pointer as fallback. *)
Theorem dispatch_panics_on_reachable (l : Logtor) (level : LogLevel)
    (callDepth : Z) (logMessage : Message) (w : list Delivery) :
  reachable l ->
  (LogIt l level logMessage w = Panics ->
   IsLogLevelAcceptable (logLevel l) level = true
   /\ (currentLogCreator l = nil_interface
       \/ exists a, currentLogCreator l = creator a
                    /\ IsReady a = false /\ defaultCreator l = nil_pointer))
  /\ (LogItWithCallDepth l level callDepth logMessage w = Panics ->
      IsLogLevelAcceptable (logLevel l) level = true
      /\ (currentLogCreator l = nil_interface
          \/ exists a, currentLogCreator l = creator a
                       /\ IsReady a = false /\ defaultCreator l = nil_pointer))
  /\ (IsLogLevelAcceptable (logLevel l) level = true ->
      currentLogCreator l = nil_interface ->
      LogIt l level logMessage w = Panics
      /\ LogItWithCallDepth l level callDepth logMessage w = Panics)
  /\ (forall (a : Creator) (first second : bool),
        currentLogCreator l = creator a ->
        (LogIt_asked l first second level logMessage w = Panics ->
         IsLogLevelAcceptable (logLevel l) level = true
         /\ first = false /\ second = false
         /\ defaultCreator l = nil_pointer)
        /\ (LogItWithCallDepth_asked l first second level callDepth
              logMessage w = Panics ->
            IsLogLevelAcceptable (logLevel l) level = true
            /\ first = false /\ second = false
            /\ defaultCreator l = nil_pointer)).
Proof.
  intros Hreach.
  destruct (reachable_keyed_registered l Hreach) as [_ Hcur].
  unfold current_registered in Hcur.
  split; [|split; [|split]].
  - run_dispatch. revert Hcur.
    destruct (IsLogLevelAcceptable (logLevel l) level); cbn; [|done].
    destruct (currentLogCreator l) as [| |a]; cbn; [by auto|done|].
    destruct (IsReady a) eqn:Hready; cbn; [done|].
    destruct (defaultCreator l); cbn; try done.
    intros _ _. split; [done|]. right. by exists a.
  - run_dispatch. revert Hcur.
    destruct (IsLogLevelAcceptable (logLevel l) level); cbn; [|done].
    destruct (currentLogCreator l) as [| |a]; cbn; [by auto|done|].
    destruct (IsReady a) eqn:Hready; cbn; [done|].
    destruct (defaultCreator l); cbn; try done.
    intros _ _. split; [done|]. right. by exists a.
  - intros Hacc Hnil. split; run_dispatch; by rewrite Hacc, Hnil.
  - intros a first second Ha.
    unfold LogIt_asked, LogItWithCallDepth_asked. split; run_dispatch;
      rewrite Ha;
      destruct (IsLogLevelAcceptable (logLevel l) level); cbn; try done;
      destruct first; cbn; try done;
      destruct second; cbn; try done;
      destruct (defaultCreator l); cbn; done.
Qed.

(** The broker is down and the fallback is a nil pointer; and the registry
    a recovered [AddLogCreators(nil, Console)] leaves. *)
Lemma dispatch_panics_on_reachable_witness :
  let l := WithDefaultCreator (ChangeLogCreator (registry TRACE Console)
                                 "Broker").2 nil_pointer in
  let l0 := (SetLogLevel
               (AddLogCreators_left New [nil_interface; creator Console])
               TRACE).2 in
  reachable l
  /\ LogIt l FATAL "x" [] = Panics
  /\ (exists a, currentLogCreator l = creator a /\ IsReady a = false)
  /\ reachable l0
  /\ LogIt l0 FATAL "x" [] = Panics.
Proof.
  intros l l0.
  assert (Hr : reachable l).
  { apply reach_WithDefaultCreator, reach_ChangeLogCreator, registry_reachable. }
  split; [exact Hr|]. split; [reflexivity|]. split.
  - destruct (proj1 (dispatch_panics_on_reachable l FATAL 0 "x" [] Hr)
                eq_refl) as [_ [Hnil|(a & Ha & Hready & _)]].
    + discriminate Hnil.
    + by exists a.
  - assert (Hr0 : reachable l0)
      by apply reach_SetLogLevel, recovered_reachable.
    split; [exact Hr0|].
    exact (proj1 (proj1 (proj2 (proj2 (dispatch_panics_on_reachable l0 FATAL
                                         0 "x" [] Hr0)))
                    eq_refl eq_refl)).
Defined.

(** X7. A call of [LogIt] or [LogItWithCallDepth] that returns has written
    at most once: either it returns false and no creator has received
    anything, or exactly one record, with the level and the message (and the
    call depth) as given, went to the current or to the fallback creator,
    after the earlier writes, and the result is that creator's. *)
Theorem dispatch_writes_at_most_once (l : Logtor) (level : LogLevel)
    (callDepth : Z) (logMessage : Message) (w w' : list Delivery) (b : bool) :
  (LogIt l level logMessage w = Returns (b, w') ->
   (b = false /\ w' = w)
   \/ exists c,
        (currentLogCreator l = creator c \/ defaultCreator l = creator c)
        /\ w' = w ++ [WroteLogIt c level logMessage]
        /\ b = creatorLogIt c level logMessage)
  /\ (LogItWithCallDepth l level callDepth logMessage w = Returns (b, w') ->
      (b = false /\ w' = w)
      \/ exists c,
           (currentLogCreator l = creator c \/ defaultCreator l = creator c)
           /\ w' = w ++ [WroteLogItWithCallDepth c level callDepth logMessage]
           /\ b = creatorLogItWithCallDepth c level callDepth logMessage).
Proof.
  split; run_dispatch;
    destruct (IsLogLevelAcceptable (logLevel l) level); cbn;
    try (intros H; inversion H; subst; by left);
    destruct (currentLogCreator l) as [| |a] eqn:Ha; cbn; try done;
    destruct (IsReady a); cbn;
    try (intros H; inversion H; subst; right; exists a; by auto);
    destruct (defaultCreator l) as [| |d] eqn:Hd; cbn; try done;
    try (intros H; inversion H; subst; by left);
    intros H; inversion H; subst; right; exists d; by auto.
Qed.

Lemma dispatch_writes_at_most_once_witness :
  LogIt (registry TRACE File) ERROR "y" []
    = Returns (true, [WroteLogIt File ERROR "y"])
  /\ ((true = false /\ [WroteLogIt File ERROR "y"] = [])
      \/ exists c,
           (currentLogCreator (registry TRACE File) = creator c
            \/ defaultCreator (registry TRACE File) = creator c)
           /\ [WroteLogIt File ERROR "y"] = [] ++ [WroteLogIt c ERROR "y"]
           /\ true = creatorLogIt c ERROR "y").
Proof.
  split; [reflexivity|].
  exact (proj1 (dispatch_writes_at_most_once (registry TRACE File) ERROR 0
                  "y" [] [WroteLogIt File ERROR "y"] true) eq_refl).
Defined.

(** ** The file creator behind the registry *)

(** X8. With a [FileCreator] current, the result of [LogIt] and of
    [LogItWithCallDepth] tells exactly whether the threshold accepted the
    level: an accepted record goes to the file creator, whatever the
    fallback is, and a rejected one goes nowhere. *)
Theorem dispatch_through_FileCreator (l : Logtor) (addr : nat)
    (fr : creators.FileCreator) (level : LogLevel) (callDepth : Z)
    (logMessage : Message) (w : list Delivery) :
  currentLogCreator l = creator (creators.as_LogCreator addr fr) ->
  LogIt l level logMessage w
  = Returns (IsLogLevelAcceptable (logLevel l) level,
             if IsLogLevelAcceptable (logLevel l) level
             then w ++ [WroteLogIt (creators.as_LogCreator addr fr) level
                          logMessage]
             else w)
  /\ LogItWithCallDepth l level callDepth logMessage w
     = Returns (IsLogLevelAcceptable (logLevel l) level,
                if IsLogLevelAcceptable (logLevel l) level
                then w ++ [WroteLogItWithCallDepth
                             (creators.as_LogCreator addr fr) level callDepth
                             logMessage]
                else w).
Proof.
  intros Hc. split; run_dispatch; rewrite Hc;
    by destruct (IsLogLevelAcceptable (logLevel l) level).
Qed.

(** X9. A file creator made with an empty name is registered, and can be
    activated, under the name "File"; one made with another name, under
    that name.  Its name is never empty. *)
Theorem NewFileCreator_registered_name (openFile : string -> bool)
    (filename : string) (name : LogCreatorName) (depth prefix : Z)
    (fr : creators.FileCreator) (addr : nat) (l l' : Logtor) :
  creators.NewFileCreator openFile filename name depth prefix = Some fr ->
  AddLogCreators l [creator (creators.as_LogCreator addr fr)] = Returns l' ->
  creators.logName fr <> ""
  /\ creators.logName fr = (if name == "" then creators.File else name)
  /\ ChangeLogCreator l' (if name == "" then creators.File else name)
     = (true, set_currentLogCreator l'
                (creator (creators.as_LogCreator addr fr))).
Proof.
  unfold creators.NewFileCreator. intros Hnew Hadd.
  destruct (openFile filename); [|done]. inversion Hnew; subst fr; clear Hnew.
  cbn [creators.logName].
  split; [|split; [done|]].
  - destruct (String.eqb_spec name ""); [done|done].
  - destruct (AddLogCreators_returns _ _ _ Hadd) as (Hmap & _ & _).
    unfold ChangeLogCreator. rewrite Hmap. cbn.
    by rewrite lookup_insert_eq.
Qed.

Lemma NewFileCreator_registered_name_witness :
  exists fr l',
    creators.NewFileCreator (fun _ => true) "./temp/temp.log" "" 3 5 = Some fr
    /\ AddLogCreators New [creator (creators.as_LogCreator 2 fr)] = Returns l'
    /\ ChangeLogCreator l' "File"
       = (true, set_currentLogCreator l'
                  (creator (creators.as_LogCreator 2 fr))).
Proof.
  eexists _, _. split; [reflexivity|]. split; [reflexivity|].
  exact (proj2 (proj2 (NewFileCreator_registered_name (fun _ => true)
                         "./temp/temp.log" "" 3 5 _ 2 New _ eq_refl eq_refl))).
Defined.

Lemma dispatch_through_FileCreator_witness :
  let fr := {| creators.fileName := "./temp/temp.log";
               creators.logName := "File"; creators.callDepth := 3;
               creators.logPrefix := 5 |} in
  let l := set_currentLogCreator (set_logLevel New WARN)
             (creator (creators.as_LogCreator 2 fr)) in
  currentLogCreator l = creator (creators.as_LogCreator 2 fr)
  /\ LogIt l ERROR "y" []
     = Returns (true, [WroteLogIt (creators.as_LogCreator 2 fr) ERROR "y"])
  /\ LogIt l INFO "z" [] = Returns (false, []).
Proof.
  intros fr l. split; [reflexivity|]. split.
  - exact (proj1 (dispatch_through_FileCreator l 2 fr ERROR 0 "y" [] eq_refl)).
  - exact (proj1 (dispatch_through_FileCreator l 2 fr INFO 0 "z" [] eq_refl)).
Defined.

(** ** Shutdown *)

Lemma shutdown_fold (vs : list LogCreator) (acc : list Creator) :
  Forall (fun lc => exists c, lc = creator c) vs ->
  exists cs,
    foldl shutdown_one (Returns acc) vs = Returns (acc ++ cs)
    /\ creator <$> cs = vs.
Proof.
  intros Hvs. revert acc.
  induction Hvs as [|lc vs [c ->] _ IH]; intros acc.
  - exists []. by rewrite app_nil_r.
  - cbn. destruct (IH (acc ++ [c])) as (cs & Hcs & Hmap).
    exists (c :: cs). rewrite Hcs, <- app_assoc. cbn. by rewrite Hmap.
Qed.

(** X10. On a reachable registry [Shutdown] returns, and it shuts down
    exactly the creators the map holds at that moment, each once: a creator
    is shut down when it is the entry under its own name, so one that a
    later registration has replaced under that name is not, and neither is
    a fallback creator that was never registered. *)
Theorem Shutdown_registered_creators (l : Logtor) :
  reachable l ->
  exists cs,
    Shutdown l = Returns cs
    /\ NoDup cs
    /\ length cs = size (logCreatorList l)
    /\ forall c, In c cs <-> logCreatorList l !! LogName c = Some (creator c).
Proof.
  intros Hreach. destruct (reachable_keyed_registered l Hreach) as [Hk _].
  assert (Hvs : Forall (fun lc => exists c, lc = creator c)
                  (map_to_list (logCreatorList l)).*2).
  { apply Forall_forall. intros lc Hlc.
    apply list_elem_of_fmap in Hlc as ([name lc'] & -> & Hin).
    apply elem_of_map_to_list in Hin.
    destruct (Hk _ _ Hin) as (c & -> & _). by exists c. }
  destruct (shutdown_fold _ [] Hvs) as (cs & Hcs & Hmap).
  exists cs. split; [exact Hcs|].
  assert (Hnodup : NoDup (map_to_list (logCreatorList l)).*2).
  { apply NoDup_fmap_2_strong; [|apply NoDup_map_to_list].
    intros [n1 v1] [n2 v2] H1 H2 Heq. cbn in Heq. subst v2.
    apply elem_of_map_to_list in H1, H2.
    destruct (Hk _ _ H1) as (c1 & -> & <-).
    destruct (Hk _ _ H2) as (c2 & Hc & <-).
    by inversion Hc. }
  split; [|split].
  - apply (NoDup_fmap_1 creator). by rewrite Hmap.
  - rewrite <- (length_fmap creator), Hmap, length_fmap.
    apply length_map_to_list.
  - intros c. rewrite <- list_elem_of_In. split.
    + intros Hin.
      assert (Hv : creator c ∈ (map_to_list (logCreatorList l)).*2).
      { rewrite <- Hmap. apply list_elem_of_fmap. by exists c. }
      apply list_elem_of_fmap in Hv as ([name lc] & Heq & Hin').
      cbn in Heq. subst lc. apply elem_of_map_to_list in Hin'.
      destruct (Hk _ _ Hin') as (c' & Hc' & <-). by inversion Hc'; subst.
    + intros Hlk.
      assert (Hv : creator c ∈ (map_to_list (logCreatorList l)).*2).
      { apply list_elem_of_fmap. exists (LogName c, creator c).
        split; [done|]. by apply elem_of_map_to_list. }
      rewrite <- Hmap in Hv.
      apply list_elem_of_fmap in Hv as (c' & Hc' & Hin). by inversion Hc'.
Qed.

(** The registry of Console, File and Broker after a second creator has
    taken the name "Console": the first one is still current and is not
    shut down. *)
Lemma Shutdown_registered_creators_witness :
  exists l' cs,
    AddLogCreators (registry TRACE Console) [creator Console2] = Returns l'
    /\ reachable l'
    /\ currentLogCreator l' = creator Console
    /\ Shutdown l' = Returns cs
    /\ In Console2 cs
    /\ ~ In Console cs.
Proof.
  eexists. 
  assert (Hadd : AddLogCreators (registry TRACE Console) [creator Console2]
                 = Returns (set_logCreatorList (registry TRACE Console)
                              (foldl add_one
                                 (logCreatorList (registry TRACE Console))
                                 [creator Console2]))) by reflexivity.
  pose proof (reach_AddLogCreators _ _ _ registry_reachable Hadd) as Hr.
  destruct (Shutdown_registered_creators _ Hr) as (cs & Hcs & _ & _ & Hin).
  exists cs. split; [exact Hadd|]. split; [exact Hr|].
  split; [reflexivity|]. split; [exact Hcs|]. split.
  - apply Hin. by vm_compute.
  - intros H. apply Hin in H. vm_compute in H. discriminate H.
Defined.

(** ** The handlers *)


Lemma size_zero_empty {A : Type} (m : gmap string A) :
  (size m =? 0)%nat = true <-> m = ∅.
Proof.
  rewrite Nat.eqb_eq. split; [apply map_size_empty_inv|].
  intros ->. apply map_size_empty.
Qed.

Lemma size_zero_nonempty {A : Type} (m : gmap string A) :
  (size m =? 0)%nat = false <-> m <> ∅.
Proof.
  rewrite <- size_zero_empty. by destruct (size m =? 0)%nat.
Qed.



Lemma ChangeLogCreator_ops_released (l : Logtor) (name : LogCreatorName) :
  ends_holding Free (ChangeLogCreator_ops l name) = Some Free.
Proof.
  unfold ChangeLogCreator_ops. by destruct (logCreatorList l !! name).
Qed.

Lemma ends_holding_app (h : Held) (a b : list Op) :
  ends_holding h (a ++ b)
  = match ends_holding h a with
    | Some h' => ends_holding h' b
    | None => None
    end.
Proof.
  revert h. induction a as [|o a IH]; intros h; [done|].
  destruct o; cbn; try apply IH; by destruct (bool_decide _).
Qed.

(** [ChangeActiveLogCreator] defers [RUnlock]: the lock is given back on
    every path, the panic included. *)
Lemma ChangeActiveLogCreator_ops_released (l : Logtor) (r : Request) :
  ends_holding Free (ChangeActiveLogCreator_ops l r) = Some Free.
Proof.
  unfold ChangeActiveLogCreator_ops.
  destruct (size (logCreatorList l) =? 0)%nat; [done|].
  destruct (negb (Method r == MethodPost)); [done|].
  destruct (Body r) as [payload|]; [|done].
  destruct (size payload =? 0)%nat; [done|].
  destruct (call_LogName (currentLogCreator l)); [|done].
  destruct (payload !! "log_creator") as [v|]; [|done].
  cbn [app ends_holding]. rewrite !bool_decide_eq_true_2 by done.
  rewrite <- !app_assoc, ends_holding_app, ChangeLogCreator_ops_released.
  done.
Qed.



(** X14. [SetLogLevelHandlerFunc] changes none of the four fields but the
    threshold; an answer other than 200 carries no body and leaves the
    threshold as it was.  In a 200 answer the old level is the threshold
    before the call and the current level is the threshold after it, which
    is also what [GetActiveLogLevel] answers next.  The answer is 404
    exactly when no creator is registered, and then the call returns with
    the read lock of [changeMutex] still held; on every other path the
    lock is given back. *)
Theorem SetLogLevelHandlerFunc_reports_threshold (l : Logtor)
    (r : TextRequest) :
  let l' := (SetLogLevelHandlerFunc l r).1 in
  let a := (SetLogLevelHandlerFunc l r).2 in
  logCreatorList l' = logCreatorList l
  /\ currentLogCreator l' = currentLogCreator l
  /\ defaultCreator l' = defaultCreator l
  /\ (ReplyStatus a <> StatusOK ->
      logLevel l' = logLevel l /\ ReplyBody a = None)
  /\ (forall res, ReplyBody a = Some res ->
      ReplyStatus a = StatusOK
      /\ OldLogLevel res = logLevel l
      /\ CurrentLogLevel res = logLevel l'
      /\ GetActiveLogLevel l'
         = {| ReplyStatus := StatusOK;
              ReplyBody := Some (CurrentLogLevel res) |})
  /\ (ReplyStatus a = StatusNotFound <-> logCreatorList l = ∅)
  /\ ends_holding Free (SetLogLevelHandlerFunc_ops l r)
     = Some (if (ReplyStatus a =? StatusNotFound)%Z then Shared else Free).
Proof.
  unfold SetLogLevelHandlerFunc, GetActiveLogLevel,
    SetLogLevelHandlerFunc_ops, SetLogLevel_ops.
  destruct (size (logCreatorList l) =? 0)%nat eqn:Hsize.
  { apply size_zero_empty in Hsize. cbn. by repeat split. }
  assert (Hne : logCreatorList l <> ∅) by by apply size_zero_nonempty.
  destruct (negb (TextMethod r == MethodPost)); [by repeat split|].
  destruct (TextBody r) as [payload|]; [|by repeat split].
  unfold SetLogLevel.
  destruct (IsValid payload); cbn;
    (split; [done|]; split; [done|]; split; [done|]; split; [done|]);
    (split; [|by split]);
    intros res Hres; inversion Hres; subst res; cbn;
    rewrite ?Hsize; by repeat split.
Qed.

(** ** The lock in the other methods *)

(** The stores of the loop of [AddLogCreators] touch no lock. *)
Lemma ends_holding_stores (h : Held) (logCreators : list LogCreator)
    (rest : list Op) :
  ends_holding h
    (flat_map (fun lc => if negb (is_nil lc) && negb (reflect_IsNil lc)
                         then [Store F_logCreatorList] else [])
       logCreators ++ rest)
  = ends_holding h rest.
Proof.
  induction logCreators as [|lc batch IH]; [done|].
  cbn [flat_map]. rewrite <- app_assoc.
  by destruct (negb (is_nil lc) && negb (reflect_IsNil lc)).
Qed.

(** [AddLogCreators] on arguments the loop gets through gives the lock
    back after the loop. *)
Lemma AddLogCreators_ops_released (l : Logtor)
    (logCreators : list LogCreator) :
  ends_holding Free (AddLogCreators_ops l logCreators) = Some Free.
Proof.
  unfold AddLogCreators_ops. cbn [app ends_holding].
  rewrite bool_decide_eq_true_2 by done. rewrite ends_holding_stores.
  cbn [app ends_holding]. rewrite bool_decide_eq_true_2 by done.
  destruct (is_nil (currentLogCreator l)); [|done].
  destruct logCreators as [|first rest]; [done|].
  destruct (call_LogName first); [|done].
  apply ChangeLogCreator_ops_released.
Qed.

(** X15. Every method gives back what it takes of [changeMutex], on every
    path, with two exceptions, both where the lock is taken with no
    [defer]: [SetLogLevelHandlerFunc] on a registry with no creator returns
    with the shared lock still held, and [AddLogCreators] ends with the
    exclusive lock still held when its loop panics on an argument. *)
Theorem calls_release_changeMutex (l : Logtor) (c : Call) :
  ends_holding Free (ops_of l c)
  = Some match c with
         | Call_SetLogLevelHandlerFunc _ =>
             if (size (logCreatorList l) =? 0)%nat then Shared else Free
         | Call_AddLogCreators_args args =>
             if has_fault args then Excl else Free
         | _ => Free
         end.
Proof.
  destruct c as [level|name|level|logCreators|args| | | |r| | |r];
    cbn [ops_of].
  - unfold SetLogLevel_ops. by destruct (IsValid level).
  - apply ChangeLogCreator_ops_released.
  - unfold LogIt_ops.
    destruct (LogLevel_IsLogLevelAcceptable (logLevel l) level); [|done].
    destruct (currentLogCreator l) as [| |a]; [done | done |].
    by destruct (IsReady a), (is_nil (defaultCreator l)).
  - apply AddLogCreators_ops_released.
  - unfold AddLogCreators_args_ops.
    destruct (has_fault args); [|apply AddLogCreators_ops_released].
    cbn [app ends_holding]. rewrite bool_decide_eq_true_2 by done.
    rewrite <- (app_nil_r (flat_map _ _)). by rewrite ends_holding_stores.
  - done.
  - done.
  - unfold GetCurrentLogCreator_ops.
    by destruct (size (logCreatorList l) =? 0)%nat.
  - apply ChangeActiveLogCreator_ops_released.
  - done.
  - unfold GetActiveLogLevel_ops.
    by destruct (size (logCreatorList l) =? 0)%nat.
  - unfold SetLogLevelHandlerFunc_ops, SetLogLevel_ops.
    destruct (size (logCreatorList l) =? 0)%nat; [done|].
    destruct (negb (TextMethod r == MethodPost)); [done|].
    destruct (TextBody r) as [payload|]; [|done].
    by destruct (IsValid payload).
Qed.

(** X16. After [SetLogLevelHandlerFunc] has answered on a registry with no
    creator, the shared lock it still holds keeps every later
    [AddLogCreators] waiting at its [Lock]: no goroutine can take a step
    any more, and the registration never happens. *)
Theorem SetLogLevelHandlerFunc_blocks_AddLogCreators (l : Logtor)
    (r : TextRequest) (logCreators : list LogCreator) :
  logCreatorList l = ∅ ->
  exists pending,
    AddLogCreators_ops l logCreators = Lock :: pending
    /\ exec [0; 0]
         (start [SetLogLevelHandlerFunc_ops l r;
                 AddLogCreators_ops l logCreators])
       = Some {| mutex := {| readers := 1; writer := false |};
                 goroutines := [[]; Lock :: pending] |}
    /\ forall (i : nat) (schedule : list nat),
         exec ([0; 0] ++ i :: schedule)
           (start [SetLogLevelHandlerFunc_ops l r;
                   AddLogCreators_ops l logCreators])
         = None.
Proof.
  intros Hempty.
  assert (Hops : SetLogLevelHandlerFunc_ops l r
                 = [RLock; Load F_logCreatorList]).
  { unfold SetLogLevelHandlerFunc_ops. by rewrite Hempty, map_size_empty. }
  rewrite Hops. eexists. split; [reflexivity|].
  split; [reflexivity|].
  intros i schedule. cbn [app exec].
  destruct i as [|[|i]]; reflexivity.
Qed.

Lemma SetLogLevelHandlerFunc_blocks_AddLogCreators_witness :
  logCreatorList New = ∅
  /\ forall (i : nat) (schedule : list nat),
       exec ([0; 0] ++ i :: schedule)
         (start [SetLogLevelHandlerFunc_ops New
                   {| TextMethod := MethodPost; TextBody := Some "TRACE" |};
                 AddLogCreators_ops New [creator Console]])
       = None.
Proof.
  split; [reflexivity|].
  destruct (SetLogLevelHandlerFunc_blocks_AddLogCreators New
              {| TextMethod := MethodPost; TextBody := Some "TRACE" |}
              [creator Console] eq_refl) as (pending & _ & _ & H).
  exact H.
Defined.

(** ** The map of creators under the lock *)

Lemma protects_step (P : Field -> bool) (h : Held) (o : Op)
    (rest : list Op) :
  protects P h (o :: rest) = true -> protects P (held_after o h) rest = true.
Proof. destruct o; cbn; intros H; apply andb_prop in H as [_ H]; exact H. Qed.

(** One step of a goroutine keeps the configuration consistent. *)
Lemma step_consistent_on (P : Field -> bool) (hs : list Held)
    (c c' : Config) (i : nat) :
  consistent_on P hs c -> step i c = Some c' ->
  exists hs', consistent_on P hs' c'.
Proof.
  intros (Hg & Hr & Hw & Hle & Hex) Hstep. unfold step in Hstep.
  destruct (goroutines c !! i) as [[|o rest]|] eqn:Hops; try done.
  destruct (mutex_step o (mutex c)) as [m'|] eqn:Hm; [|done].
  inversion Hstep; subst c'; clear Hstep.
  destruct (Forall2_lookup_r _ _ _ _ _ Hg Hops) as (h & Hh & Hgh).
  exists (<[i := held_after o h]> hs).
  pose proof (holders_insert Shared h (held_after o h) hs i Hh) as HS.
  pose proof (holders_insert Excl h (held_after o h) hs i Hh) as HE.
  pose proof (holders_lookup h hs i Hh) as Hone.
  assert (Hg' : Forall2 (fun h ops => protects P h ops = true)
                  (<[i := held_after o h]> hs) (<[i := rest]> (goroutines c))).
  { apply Forall2_insert; [done | by apply protects_step]. }
  unfold consistent_on. cbn [mutex goroutines].
  split; [exact Hg'|]. clear Hg Hg' Hops.
  destruct (mutex c) as [r wr]. cbn [readers writer] in Hr, Hw. subst r.
  assert (Hwr : wr = true <-> holders Excl hs = 1).
  { rewrite Hw, bool_decide_eq_true. lia. }
  destruct o; cbn [protects] in Hgh; cbn [mutex_step readers writer] in Hm;
    cbn [held_after] in HS, HE |- *;
    apply andb_prop in Hgh as [Hgd _].
  - apply bool_decide_eq_true_1 in Hgd; subst h. decide_held.
    destruct wr; [done|]. inversion Hm; subst m'. cbn [readers writer].
    assert (holders Excl hs <> 1) by (intros E; apply Hwr in E; done).
    repeat split; try lia.
    symmetry. apply bool_decide_eq_false_2. lia.
  - apply bool_decide_eq_true_1 in Hgd; subst h. decide_held.
    destruct (holders Shared hs) as [|n] eqn:En; [lia|].
    inversion Hm; subst m'. cbn [readers writer].
    repeat split; try lia.
    rewrite Hw. apply bool_decide_ext. lia.
  - apply bool_decide_eq_true_1 in Hgd; subst h. decide_held.
    destruct wr; [done|].
    destruct (holders Shared hs) as [|n] eqn:En; [|done].
    inversion Hm; subst m'. cbn [readers writer].
    assert (holders Excl hs <> 1) by (intros E; apply Hwr in E; done).
    repeat split; try lia.
    symmetry. apply bool_decide_eq_true_2. lia.
  - apply bool_decide_eq_true_1 in Hgd; subst h. decide_held.
    destruct wr; [|done]. inversion Hm; subst m'. cbn [readers writer].
    repeat split; try lia.
    symmetry. apply bool_decide_eq_false_2. lia.
  - inversion Hm; subst m'. cbn [readers writer].
    rewrite list_insert_id by done. by repeat split.
  - inversion Hm; subst m'. cbn [readers writer].
    rewrite list_insert_id by done. by repeat split.
Qed.

Lemma exec_consistent_on (P : Field -> bool) (schedule : list nat)
    (hs : list Held) (c c' : Config) :
  consistent_on P hs c -> exec schedule c = Some c' ->
  exists hs', consistent_on P hs' c'.
Proof.
  revert hs c. induction schedule as [|i schedule IH]; intros hs c Hc Hex.
  - inversion Hex; subst. by exists hs.
  - cbn in Hex. destruct (step i c) as [c1|] eqn:Hstep; [|done].
    destruct (step_consistent_on _ _ _ _ _ Hc Hstep) as [hs1 Hc1].
    by apply (IH hs1 c1).
Qed.

Lemma start_consistent_on (P : Field -> bool) (gs : list (list Op)) :
  forallb (protects P Free) gs = true ->
  consistent_on P (replicate (length gs) Free) (start gs).
Proof.
  intros Hgs.
  assert (Hz : forall x n, x <> Free -> holders x (replicate n Free) = 0).
  { intros x n Hx. induction n as [|n IH]; [done|]. cbn.
    rewrite bool_decide_eq_false_2 by done. exact IH. }
  unfold consistent_on. cbn [start mutex goroutines readers writer].
  rewrite !Hz by done. repeat split; try lia.
  induction gs as [|g gs IH]; [constructor|].
  cbn in Hgs. apply andb_prop in Hgs as [Hg Hgs].
  cbn. constructor; [exact Hg | by apply IH].
Qed.

(** No two goroutines of a consistent configuration race on a field that
    the discipline covers. *)
Lemma consistent_on_no_race (P : Field -> bool) (f : Field)
    (hs : list Held) (c : Config) (i j : nat) :
  P f = true -> consistent_on P hs c -> races_on f c i j = false.
Proof.
  intros HP (Hg & Hr & Hw & Hle & Hex).
  destruct (races_on f c i j) eqn:Hrace; [exfalso|done].
  unfold races_on, races in Hrace.
  apply andb_prop in Hrace as [Hrace Hacc].
  apply andb_prop in Hrace as [Hne Hconf].
  apply bool_decide_eq_true_1 in Hne. unfold next_op in Hconf, Hacc.
  destruct (goroutines c !! i) as [[|a ra]|] eqn:Hi; try done.
  destruct (goroutines c !! j) as [[|b rb]|] eqn:Hj; try done.
  destruct (Forall2_lookup_r _ _ _ _ _ Hg Hi) as (hi & Hhi & Hgi).
  destruct (Forall2_lookup_r _ _ _ _ _ Hg Hj) as (hj & Hhj & Hgj).
  assert (Hboth : hi <> Free /\ hj <> Free /\ (hi = Excl \/ hj = Excl)).
  { destruct a as [| | | |fa|fa], b as [| | | |fb|fb];
      cbn in Hconf, Hacc; try done;
      apply bool_decide_eq_true_1 in Hconf, Hacc; subst fa fb;
      cbn in Hgi, Hgj; rewrite HP in Hgi, Hgj; cbn in Hgi, Hgj;
      apply andb_prop in Hgi as [Hgi _]; apply andb_prop in Hgj as [Hgj _];
      repeat match goal with
        | H : bool_decide _ = true |- _ => apply bool_decide_eq_true_1 in H
        | H : negb (bool_decide _) = true |- _ =>
            apply negb_true_iff, bool_decide_eq_false_1 in H
        end; subst; repeat split; auto; done. }
  destruct Hboth as (Hfi & Hfj & Hexcl).
  pose proof (holders_lookup _ _ _ Hhi) as Hci.
  pose proof (holders_lookup _ _ _ Hhj) as Hcj.
  destruct hi, hj; try done; destruct Hexcl as [?|?]; try done.
  - lia.
  - lia.
  - pose proof (holders_lookup2 _ _ _ _ Hne Hhi Hhj). lia.
  - pose proof (holders_lookup2 _ _ _ _ Hne Hhi Hhj). lia.
Qed.

Lemma protects_app (P : Field -> bool) (h h' : Held) (a b : list Op) :
  ends_holding h a = Some h' ->
  protects P h a = true -> protects P h' b = true ->
  protects P h (a ++ b) = true.
Proof.
  revert h. induction a as [|o a IH]; intros h Hend Ha Hb.
  - cbn in Hend. by inversion Hend; subst.
  - destruct o; cbn in Hend, Ha |- *;
      apply andb_prop in Ha as [Hgd Ha]; rewrite Hgd; cbn;
      try (apply bool_decide_eq_true_1 in Hgd; subst h;
           rewrite bool_decide_eq_true_2 in Hend by done);
      by apply IH.
Qed.

Lemma protects_stores (logCreators : list LogCreator) (rest : list Op) :
  protects is_logCreatorList Excl
    (flat_map (fun lc => if negb (is_nil lc) && negb (reflect_IsNil lc)
                         then [Store F_logCreatorList] else [])
       logCreators ++ rest)
  = protects is_logCreatorList Excl rest.
Proof.
  induction logCreators as [|lc batch IH]; [done|].
  cbn [flat_map]. rewrite <- app_assoc.
  by destruct (negb (is_nil lc) && negb (reflect_IsNil lc)).
Qed.

Lemma ChangeLogCreator_ops_protects (l : Logtor) (name : LogCreatorName) :
  protects is_logCreatorList Free (ChangeLogCreator_ops l name) = true.
Proof.
  unfold ChangeLogCreator_ops. by destruct (logCreatorList l !! name).
Qed.

Lemma AddLogCreators_ops_protects (l : Logtor)
    (logCreators : list LogCreator) :
  protects is_logCreatorList Free (AddLogCreators_ops l logCreators) = true.
Proof.
  unfold AddLogCreators_ops. cbn [app protects].
  rewrite bool_decide_eq_true_2 by done. rewrite protects_stores.
  cbn [app protects]. rewrite bool_decide_eq_true_2 by done.
  apply andb_true_intro. split; [done|].
  apply andb_true_intro. split; [done|].
  destruct (is_nil (currentLogCreator l)); [|done].
  destruct logCreators as [|first rest]; [done|].
  destruct (call_LogName first); [|done].
  apply ChangeLogCreator_ops_protects.
Qed.

(** Every method but [Shutdown] touches the map under the lock only. *)
Lemma ops_of_protects (l : Logtor) (c : Call) :
  is_Shutdown c = false ->
  protects is_logCreatorList Free (ops_of l c) = true.
Proof.
  destruct c as [level|name|level|logCreators|args| | | |r| | |r];
    cbn [ops_of is_Shutdown]; intros Hs; try done.
  - unfold SetLogLevel_ops. by destruct (IsValid level).
  - apply ChangeLogCreator_ops_protects.
  - unfold LogIt_ops.
    destruct (LogLevel_IsLogLevelAcceptable (logLevel l) level); [|done].
    destruct (currentLogCreator l) as [| |a]; [done | done |].
    by destruct (IsReady a), (is_nil (defaultCreator l)).
  - apply AddLogCreators_ops_protects.
  - unfold AddLogCreators_args_ops.
    destruct (has_fault args); [|apply AddLogCreators_ops_protects].
    cbn [app protects]. rewrite bool_decide_eq_true_2 by done.
    rewrite <- (app_nil_r (flat_map _ _)). by rewrite protects_stores.
  - unfold GetCurrentLogCreator_ops.
    by destruct (size (logCreatorList l) =? 0)%nat.
  - unfold ChangeActiveLogCreator_ops.
    destruct (size (logCreatorList l) =? 0)%nat; [done|].
    destruct (negb (Method r == MethodPost)); [done|].
    destruct (Body r) as [payload|]; [|done].
    destruct (size payload =? 0)%nat; [done|].
    destruct (call_LogName (currentLogCreator l)); [|done].
    destruct (payload !! "log_creator") as [v|]; [|done].
    cbn [app protects].
    do 4 (apply andb_true_intro; split; [done|]).
    rewrite <- app_assoc.
    apply (protects_app _ _ Free);
      [apply ChangeLogCreator_ops_released
      | apply ChangeLogCreator_ops_protects | done].
  - unfold GetActiveLogLevel_ops.
    by destruct (size (logCreatorList l) =? 0)%nat.
  - unfold SetLogLevelHandlerFunc_ops, SetLogLevel_ops.
    destruct (size (logCreatorList l) =? 0)%nat; [done|].
    destruct (negb (TextMethod r == MethodPost)); [done|].
    destruct (TextBody r) as [payload|]; [|done].
    by destruct (IsValid payload).
Qed.

(** X17. The map of creators is never raced by goroutines that each run
    one method other than [Shutdown], whatever the registries they see, the
    arguments and the schedule: [AddLogCreators] stores to it under the
    exclusive lock only, and [ChangeLogCreator] and the handlers read it
    under the shared lock. *)
Theorem logCreatorList_never_raced (gs : list (Logtor * Call))
    (schedule : list nat) (c : Config) (i j : nat) :
  forallb (fun g => negb (is_Shutdown g.2)) gs = true ->
  exec schedule (start (map (fun g => ops_of g.1 g.2) gs)) = Some c ->
  races_on F_logCreatorList c i j = false.
Proof.
  intros Hgs Hex.
  assert (Hp : forallb (protects is_logCreatorList Free)
                 (map (fun g => ops_of g.1 g.2) gs) = true).
  { clear Hex. induction gs as [|[l call] gs IH]; [done|].
    cbn [forallb map fst snd] in Hgs |- *.
    apply andb_prop in Hgs as [Hc Hgs]. apply negb_true_iff in Hc.
    rewrite (ops_of_protects l call Hc). by apply IH. }
  destruct (exec_consistent_on _ _ _ _ _ (start_consistent_on _ _ Hp) Hex)
    as [hs Hc].
  by apply (consistent_on_no_race is_logCreatorList _ hs).
Qed.

(** [AddLogCreators] and [GetCurrentLogCreator] side by side. *)
Lemma logCreatorList_never_raced_witness :
  let gs := [(registry TRACE Console, Call_AddLogCreators [creator Console2]);
             (registry TRACE Console, Call_GetCurrentLogCreator)] in
  exists c,
    exec [0; 0] (start (map (fun g => ops_of g.1 g.2) gs)) = Some c
    /\ next_op c 0 = Some Unlock
    /\ races_on F_logCreatorList c 0 1 = false.
Proof.
  intros gs. eexists. split; [reflexivity|]. split; [reflexivity|].
  exact (logCreatorList_never_raced gs [0; 0] _ 0 1 eq_refl eq_refl).
Defined.

(** [Shutdown] is the exception: it ranges over the map with no lock, while
    [AddLogCreators] is about to store to it. *)
Lemma Shutdown_races_with_AddLogCreators :
  exists c,
    exec [0]
      (start [ops_of (registry TRACE Console)
                (Call_AddLogCreators [creator Console2]);
              ops_of (registry TRACE Console) Call_Shutdown]) = Some c
    /\ races_on F_logCreatorList c 0 1 = true.
Proof. eexists. split; reflexivity. Qed.

(** ** Activation seen through the handlers *)

(** X18. On a reachable registry, a call of [ChangeLogCreator] that returns
    true changes nothing but the current creator, and [GetCurrentLogCreator]
    then answers 200 with the very name that was asked for. *)
Theorem ChangeLogCreator_then_GetCurrentLogCreator (l l' : Logtor)
    (name : LogCreatorName) :
  reachable l ->
  ChangeLogCreator l name = (true, l') ->
  logCreatorList l' = logCreatorList l
  /\ logLevel l' = logLevel l
  /\ defaultCreator l' = defaultCreator l
  /\ GetCurrentLogCreator l'
     = Returns {| ReplyStatus := StatusOK; ReplyBody := Some name |}.
Proof.
  intros Hreach. destruct (reachable_keyed_registered l Hreach) as [Hk _].
  unfold ChangeLogCreator.
  destruct (logCreatorList l !! name) as [lc|] eqn:Hlk; [|done].
  intros H; inversion H; subst l'; clear H.
  destruct (Hk _ _ Hlk) as (c & -> & <-).
  repeat split; try done.
  unfold GetCurrentLogCreator. cbn [logCreatorList set_currentLogCreator].
  rewrite size_nonempty; [done|].
  intros Hempty. by rewrite Hempty, lookup_empty in Hlk.
Qed.

Lemma ChangeLogCreator_then_GetCurrentLogCreator_witness :
  reachable (registry TRACE Console)
  /\ ChangeLogCreator (registry TRACE Console) "File"
     = (true, registry TRACE File)
  /\ GetCurrentLogCreator (registry TRACE File)
     = Returns {| ReplyStatus := StatusOK; ReplyBody := Some "File" |}.
Proof.
  split; [exact registry_reachable|].
  assert (H : ChangeLogCreator (registry TRACE Console) "File"
              = (true, registry TRACE File)) by by vm_compute.
  split; [exact H|].
  exact (proj2 (proj2 (proj2
    (ChangeLogCreator_then_GetCurrentLogCreator (registry TRACE Console)
       (registry TRACE File) "File" registry_reachable H)))).
Defined.
